(** * qubic-js: quorum-replicating connection core and client outbox

    A shallow embedding of the connection module ([createConnection], the
    first part of src/unnamed/part_000, which the client imports as
    [./connection.js]), of [verify] in src/crypto/index.js, and of the outbox
    part of the client module (the second part of the same file), with the
    properties of the specification stated against it.  Line numbers are
    those of src/unnamed/part_000.

    Conventions of the embedding.
    - A JavaScript array whose elements are strings is a [list (option string)]:
      the list length is the array's [length], [None] is a hole, which reads
      as [undefined].  Writing past the end extends the array with holes.
    - [Map] objects keyed by strings are [gmap string _] where only
      get/set/delete are used; the plain object [counts] of
      [compareResponses] keeps its insertion order in an association list.
    - Time is explicit: the state carries the clock that [Date.now()] reads
      (milliseconds), set by the scheduler before a handler runs; a pending
      [setTimeout] is recorded with its due time.
    - Emitted events, frames handed to [socket.send] and promise settlements
      are appended to logs held in the state. *)

From Stdlib Require Import ZArith Lia.
From stdpp Require Import gmap strings list pretty.

#[local] Open Scope string_scope.
#[local] Open Scope list_scope.
#[local] Open Scope nat_scope.

(** ** JavaScript arrays with holes *)

Abbreviation js_array := (list (option string)).

(** [a[i] = v]: in range it overwrites, past the end it first pads with holes. *)
Definition array_set {A} (a : list (option A)) (i : nat) (v : A) : list (option A) :=
  if decide (i < length a)
  then <[i := Some v]> a
  else a ++ replicate (i - length a) None ++ [Some v].

(** [a[i]]: [undefined] for a hole and for an index past the end. *)
Definition array_get {A} (a : list (option A)) (i : nat) : option A :=
  default None (a !! i).

(** [a.forEach(function (x) { ... })] where the callback updates [x] in
    place; holes are skipped. *)
Definition forEach {A} (f : A → A) (a : list (option A)) : list (option A) :=
  (λ o, match o with Some x => Some (f x) | None => None end) <$> a.

(** ToString of a slot value, as used by [+] and, for a property key, by
    [counts[v]]: [undefined] becomes the key "undefined". *)
Definition ToString (v : option string) : string :=
  match v with
  | Some s => s
  | None => "undefined"
  end.

(** ** compareResponses (lines 15-30) *)

Definition NUMBER_OF_CONNECTIONS : nat := 3.

(** What a property of [counts] can hold: a number, or the text obtained
    when [+ 1] was applied to an inherited member of [Object.prototype]
    (string concatenation; such a text converts to NaN). *)
Inductive count_value :=
  | CNum (n : nat)
  | CText.

(** Own property names of [Object.prototype], which [counts = {}] inherits. *)
Definition Object_prototype_keys : list string :=
  [ "constructor"; "__defineGetter__"; "__defineSetter__"; "hasOwnProperty";
    "__lookupGetter__"; "__lookupSetter__"; "isPrototypeOf";
    "propertyIsEnumerable"; "toString"; "valueOf"; "__proto__";
    "toLocaleString" ].

Definition inherited (k : string) : bool :=
  bool_decide (k ∈ Object_prototype_keys).

(** Own properties in insertion order (also used for [Map] objects whose
    order is observed). *)
Fixpoint counts_own {V} (counts : list (string * V)) (k : string) : option V :=
  match counts with
  | [] => None
  | (k', v) :: rest => if decide (k' = k) then Some v else counts_own rest k
  end.

Fixpoint counts_put {V} (counts : list (string * V)) (k : string) (v : V)
  : list (string * V) :=
  match counts with
  | [] => [(k, v)]
  | (k', v') :: rest =>
      if decide (k' = k) then (k, v) :: rest
      else (k', v') :: counts_put rest k v
  end.

Definition counts_delete {V} (counts : list (string * V)) (k : string)
  : list (string * V) :=
  filter (λ kv, kv.1 ≠ k) counts.

(** [counts[r] = (counts[r] || 0) + 1] with the key [ToString r]. *)
Definition counts_bump (counts : list (string * count_value))
  (r : option string) : list (string * count_value) :=
  let k := ToString r in
  match counts_own counts k with
  | Some (CNum n) => counts_put counts k (CNum (S n))
  | Some CText => counts_put counts k CText
  | None =>
      if inherited k
      then (if decide (k = "__proto__") then counts   (* the setter drops a string *)
            else counts_put counts k CText)
      else counts_put counts k (CNum 1)
  end.

(** [if (v > syncStatus) syncStatus = v]; a text compares as NaN. *)
Definition sync_max (syncStatus : nat) (v : count_value) : nat :=
  match v with
  | CNum n => if decide (syncStatus < n) then n else syncStatus
  | CText => syncStatus
  end.

(** The first loop reads [responses[i]] for every [i] below
    [responses.length], holes included; the second takes the largest count.
    [Object.values] lists integer-like keys first, which does not change the
    maximum. *)
Definition compareResponses (responses : js_array) : nat :=
  let counts := foldl counts_bump [] responses in
  foldl sync_max 0 (counts.*2).

(** The specification's comparator, written from its words: count the
    occurrences of each present payload, ignore absent slots, return the
    largest count. *)
Definition occurrences (x : string) (l : list string) : nat :=
  length (filter (λ y, y = x) l).

Definition mode_multiplicity (l : list string) : nat :=
  max_list ((λ x, occurrences x l) <$> l).

Definition present (slots : js_array) : list string := omap id slots.

Definition quorum_size (slots : js_array) : nat :=
  mode_multiplicity (present slots).

(** The state of [counts] after the first loop has read the keys [p]. *)
Definition counts_of (counts : list (string * count_value)) (p : list string) : Prop :=
  NoDup counts.*1 ∧
  ∀ k, counts_own counts k =
       if decide (occurrences k p = 0) then None else Some (CNum (occurrences k p)).

(** ** Collaborators outside the repository's sources

    [SchnorrQ_Verify pk m len s] is the word the FourQ module leaves in its
    result cell; [shiftedHexToBytes] comes from [utils/hex.js];
    [base64_decode s] is [Buffer.from(s, 'base64')]. *)
Class Collaborators := {
  SchnorrQ_Verify : list Z → list Z → nat → list Z → Z;
  shiftedHexToBytes : string → list Z;
  base64_decode : string → list Z;
}.

(** [verify] of crypto/index.js: the three arrays are copied to the module's
    heap, the message goes with [message.length], and [v[0]] is returned. *)
Definition verify `{Collaborators} (publicKey message signature : list Z) : Z :=
  SchnorrQ_Verify publicKey message (length message) signature.

(** ** Typed arrays and DataView *)

Definition ArrayBuffer (n : nat) : list Z := replicate n 0%Z.

Definition byte_of (value : Z) (k : Z) : Z :=
  Z.land (Z.shiftr value (8 * k)) 255.

(** [view.setUint32(byteOffset, value)]: ToUint32, big-endian. *)
Definition setUint32 (buffer : list Z) (byteOffset : nat) (value : Z) : list Z :=
  let v := (value mod 2 ^ 32)%Z in
  <[byteOffset + 3 := byte_of v 0]>
    (<[byteOffset + 2 := byte_of v 1]>
       (<[byteOffset + 1 := byte_of v 2]>
          (<[byteOffset := byte_of v 3]> buffer))).

(** [view.setUint16(byteOffset, value)]: ToUint16, big-endian. *)
Definition setUint16 (buffer : list Z) (byteOffset : nat) (value : Z) : list Z :=
  let v := (value mod 2 ^ 16)%Z in
  <[byteOffset + 1 := byte_of v 0]> (<[byteOffset := byte_of v 1]> buffer).

(** Arguments that [Uint8Array.from] receives in connection.js. *)
Inductive from_source :=
  | OfArrayBuffer (bytes : list Z)   (* an ArrayBuffer *)
  | OfBuffer (bytes : list Z).       (* a Node Buffer, itself a Uint8Array *)

(** [Uint8Array.from(source)] (ECMAScript, %TypedArray%.from) copies the
    elements an iterable yields, or else treats the source as array-like
    and copies its first [ToLength(source.length)] indexed elements.  An
    ArrayBuffer has no [Symbol.iterator] method and no [length] property
    (its size is [byteLength]), so the length reads as [undefined], which
    converts to 0: the result is empty.  A view of the bytes is what
    [new Uint8Array(buffer)] gives. *)
Definition Uint8Array_from (source : from_source) : list Z :=
  match source with
  | OfArrayBuffer _ => []
  | OfBuffer bytes => bytes
  end.

Definition EPOCH_OFFSET : nat := 0.
Definition EPOCH_LENGTH : nat := 4.
Definition TICK_OFFSET : nat := EPOCH_OFFSET + EPOCH_LENGTH.
Definition TICK_LENGTH : nat := 2.

(** ** Messages *)

(** String-valued properties of a JavaScript object. *)
Abbreviation object := (gmap string string).

(** [JSON.parse(message.data)] as far as [onmessage] reads it: the command,
    the fields of an info message, and the string-valued properties. *)
Record parsedMessage := {
  command : Z;
  epoch : Z;
  tick : Z;
  signature : string;
  fields : object;
}.

(** An inbound frame: its text, and what [JSON.parse] makes of it.  [None]
    stands for a frame on which the handler throws (unparsable text, or no
    [command] to call [toString] on). *)
Record MessageEvent := {
  data : string;
  parsed : option parsedMessage;
}.

(** The object given to [JSON.stringify] in [sendCommand]; a frame is
    identified with the object it serialises. *)
Definition request : Type := Z * object.

(** [a || b] on optional strings: the empty string is falsy. *)
Definition truthy (v : option string) : bool :=
  match v with
  | Some s => negb (bool_decide (s = EmptyString))
  | None => false
  end.

Definition js_or (a b : option string) : option string :=
  if truthy a then a else b.

(** [command.toString() + (o.identity || o.hash)], lines 137-138 and 199. *)
Definition correlation_key (command : Z) (o : object) : string :=
  pretty command +:+ ToString (js_or (o !! "identity") (o !! "hash")).

(** The key as the specification words it:
    [command || (payload.identity or payload.hash or payload.digest)]. *)
Definition spec_key (command : Z) (o : object) : string :=
  pretty command +:+
  ToString (js_or (o !! "identity") (js_or (o !! "hash") (o !! "digest"))).

(** ** State of a connection *)

Inductive readyState := CONNECTING | OPEN | CLOSING | CLOSED.

(** The socket stored in [sockets[i]].  [onclose] tells whether the close
    handler is attached, [open_resolved] whether the promise [socket.open]
    is resolved, [deferred] holds the frames of [socket.open.then(send)]
    callbacks still waiting, [sent] the frames handed to [socket.send]. *)
Record socket := {
  computor : string;
  ready : readyState;
  onclose : bool;
  open_resolved : bool;
  deferred : list request;
  sent : list request;
}.

Inductive event :=
  | EInfo (syncStatus : nat) (epoch_tick : option (Z * Z))
  | EOpen (i : nat)
  | EClose (i : nat)
  | EError (i : nat).

Inductive callback :=
  | Watchdog            (* synchronizationRoutine *)
  | Reconnect (i : nat). (* openSocket(i) *)

Record timer := {
  handle : nat;
  due : Z;
  action : callback;
}.

(** The runtime side: the clock read by [Date.now()], the pending timers,
    and the log of emitted events with the time of emission. *)
Record event_loop := {
  clock : Z;
  timers : list timer;
  next_handle : nat;
  emitted : list (Z * event);
}.

Record sync := {
  latestSynchronizationTimestamp : Z;
  latestSyncStatus : nat;
  statusResponses : js_array;
}.

(** A [responses] array with the promise attached to it. *)
Record responses := {
  slots : js_array;
  promise : nat;
}.

Inductive settlement :=
  | Resolved (reply : parsedMessage)
  | Rejected (reason : string).

(** [requestsByKey] keeps the insertion order [onopen] replays in. *)
Record routing := {
  responsesByKey : gmap string responses;
  requestsByKey : list (string * request);
  settled : list (nat * settlement);
  next_promise : nat;
}.

Record connection := {
  sockets : list (option socket);
  synchronizationTimeout : option nat;
  tracker : sync;
  router : routing;
  loop : event_loop;
}.

Record config := {
  computors : list string;
  synchronizationInterval : Z;
  adminPublicKey : string;
  reconnectTimeoutDuration : Z;
}.

Definition with_sockets (v : list (option socket)) (c : connection) : connection :=
  {| sockets := v; synchronizationTimeout := synchronizationTimeout c;
     tracker := tracker c; router := router c; loop := loop c |}.

Definition with_timeout (v : option nat) (c : connection) : connection :=
  {| sockets := sockets c; synchronizationTimeout := v;
     tracker := tracker c; router := router c; loop := loop c |}.

Definition with_tracker (v : sync) (c : connection) : connection :=
  {| sockets := sockets c; synchronizationTimeout := synchronizationTimeout c;
     tracker := v; router := router c; loop := loop c |}.

Definition with_router (v : routing) (c : connection) : connection :=
  {| sockets := sockets c; synchronizationTimeout := synchronizationTimeout c;
     tracker := tracker c; router := v; loop := loop c |}.

Definition with_loop (v : event_loop) (c : connection) : connection :=
  {| sockets := sockets c; synchronizationTimeout := synchronizationTimeout c;
     tracker := tracker c; router := router c; loop := v |}.

(** ** The event loop *)

Definition emit (e : event) (l : event_loop) : event_loop :=
  {| clock := clock l; timers := timers l; next_handle := next_handle l;
     emitted := emitted l ++ [(clock l, e)] |}.

(** [setTimeout(action, delay)] returns the new handle. *)
Definition setTimeout (a : callback) (delay : Z) (l : event_loop) : event_loop * nat :=
  ({| clock := clock l;
      timers := timers l ++ [{| handle := next_handle l; due := (clock l + delay)%Z;
                                action := a |}];
      next_handle := S (next_handle l);
      emitted := emitted l |},
   next_handle l).

(** [clearTimeout(h)]; [clearTimeout(undefined)] does nothing. *)
Definition clearTimeout (h : option nat) (l : event_loop) : event_loop :=
  {| clock := clock l;
     timers := filter (λ t, Some (handle t) ≠ h) (timers l);
     next_handle := next_handle l;
     emitted := emitted l |}.

Definition at_time (now : Z) (l : event_loop) : event_loop :=
  {| clock := now; timers := timers l; next_handle := next_handle l;
     emitted := emitted l |}.

(** ** onmessage, info branch (lines 94-135) *)

Definition info_buffer (epoch tick : Z) : list Z :=
  setUint16
    (setUint32 (ArrayBuffer (EPOCH_LENGTH + TICK_LENGTH)) EPOCH_OFFSET epoch)
    TICK_OFFSET tick.

(** The three arguments of [schnorrq.verify] at lines 103-107. *)
Definition verify_arguments `{Collaborators} (cfg : config) (m : parsedMessage)
  : list Z * list Z * list Z :=
  (shiftedHexToBytes (adminPublicKey cfg),
   Uint8Array_from (OfArrayBuffer (info_buffer (epoch m) (tick m))),
   Uint8Array_from (OfBuffer (base64_decode (signature m)))).

Definition info_verified `{Collaborators} (cfg : config) (m : parsedMessage) : bool :=
  let '(publicKey, message, sig) := verify_arguments cfg m in
  bool_decide (verify publicKey message sig = 1%Z).

(** Lines 109-132, run once the signature has verified. *)
Definition on_info (i : nat) (message : MessageEvent) (m : parsedMessage)
  (c : connection) : connection :=
  let t := tracker c in
  let statusResponses' := array_set (statusResponses t) i (data message) in
  let syncStatus := compareResponses statusResponses' in
  if decide (latestSyncStatus t < syncStatus)%nat then
    let c1 := with_loop (emit (EInfo syncStatus (Some (epoch m, tick m))) (loop c)) c in
    if decide (syncStatus = NUMBER_OF_CONNECTIONS) then
      with_tracker {| latestSynchronizationTimestamp := clock (loop c);
                      latestSyncStatus := 0;
                      statusResponses := [] |} c1
    else
      with_tracker {| latestSynchronizationTimestamp := clock (loop c);
                      latestSyncStatus := syncStatus;
                      statusResponses := statusResponses' |} c1
  else
    with_tracker {| latestSynchronizationTimestamp := latestSynchronizationTimestamp t;
                    latestSyncStatus := latestSyncStatus t;
                    statusResponses := statusResponses' |} c.

(** ** onmessage, reply branch (lines 137-151) *)

(** [responses.resolve(..)] or [responses.reject(..)], followed by the two
    [delete(key)]. *)
Definition settle_and_delete (key : string) (p : nat) (o : settlement)
  (r : routing) : routing :=
  {| responsesByKey := delete key (responsesByKey r);
     requestsByKey := counts_delete (requestsByKey r) key;
     settled := settled r ++ [(p, o)];
     next_promise := next_promise r |}.

Definition on_reply (i : nat) (message : MessageEvent) (m : parsedMessage)
  (r : routing) : routing :=
  let key := correlation_key (command m) (fields m) in
  match responsesByKey r !! key with
  | None => r
  | Some rs =>
      let slots' := array_set (slots rs) i (data message) in
      if decide (2 ≤ compareResponses slots')%nat then
        settle_and_delete key (promise rs) (Resolved m) r
      else if decide (length slots' = NUMBER_OF_CONNECTIONS) then
        settle_and_delete key (promise rs) (Rejected "Invalid responses.") r
      else
        {| responsesByKey :=
             <[key := {| slots := slots'; promise := promise rs |}]> (responsesByKey r);
           requestsByKey := requestsByKey r;
           settled := settled r;
           next_promise := next_promise r |}
  end.

(** ** Sockets *)

(** [socket.close()]. *)
Definition socket_close (s : socket) : socket :=
  {| computor := computor s;
     ready := match ready s with CLOSED => CLOSED | _ => CLOSING end;
     onclose := onclose s; open_resolved := open_resolved s;
     deferred := deferred s; sent := sent s |}.

(** [socket.terminate()], lines 300-303: detach the close handler, then close. *)
Definition terminate (s : socket) : socket :=
  socket_close
    {| computor := computor s; ready := ready s;
       onclose := false; open_resolved := open_resolved s;
       deferred := deferred s; sent := sent s |}.

(** [resolveOnOpenOrClose()]: the waiting [then] callbacks now call [send]. *)
Definition resolve_open (st : readyState) (frames : list request) (s : socket) : socket :=
  {| computor := computor s; ready := st; onclose := onclose s;
     open_resolved := true; deferred := [];
     sent := sent s ++ frames ++ deferred s |}.

(** [socket.open.then(function () { socket.send(request) })]. *)
Definition send_when_open (rq : request) (s : socket) : socket :=
  if open_resolved s
  then {| computor := computor s; ready := ready s; onclose := onclose s;
          open_resolved := true; deferred := deferred s; sent := sent s ++ [rq] |}
  else {| computor := computor s; ready := ready s; onclose := onclose s;
          open_resolved := false; deferred := deferred s ++ [rq]; sent := sent s |}.

Definition update_socket (i : nat) (f : socket → socket) (c : connection) : connection :=
  with_sockets (alter (fmap f) i (sockets c)) c.

(** [openSocket(i)], lines 249-304.  The configuration names a computor
    for every index that is opened. *)
Definition openSocket (cfg : config) (i : nat) (c : connection) : connection :=
  with_sockets
    (array_set (sockets c) i
       {| computor := default EmptyString (computors cfg !! i); ready := CONNECTING;
          onclose := true; open_resolved := false; deferred := []; sent := [] |})
    c.

(** The open event on [sockets[i]], lines 262-272. *)
Definition socket_onopen (i : nat) (c : connection) : connection :=
  match array_get (sockets c) i with
  | None => c
  | Some _ =>
      update_socket i (resolve_open OPEN (requestsByKey (router c)).*2)
        (with_loop (emit (EOpen i) (loop c)) c)
  end.

(** The error event on [sockets[i]], lines 276-284. *)
Definition socket_onerror (i : nat) (c : connection) : connection :=
  with_loop (emit (EError i) (loop c)) c.

(** The close event on [sockets[i]], lines 286-298; without a handler the
    socket is closed and nothing else happens. *)
Definition socket_onclose (cfg : config) (i : nat) (c : connection) : connection :=
  match array_get (sockets c) i with
  | None => c
  | Some s =>
      if onclose s then
        let c1 := with_loop (emit (EClose i) (loop c)) c in
        let c2 := update_socket i (resolve_open CLOSED []) c1 in
        with_loop (setTimeout (Reconnect i) (reconnectTimeoutDuration cfg) (loop c2)).1 c2
      else
        update_socket i
          (λ s, {| computor := computor s; ready := CLOSED; onclose := false;
                   open_resolved := open_resolved s; deferred := deferred s;
                   sent := sent s |}) c
  end.

(** ** onmessage (lines 86-156) *)

Definition onmessage `{Collaborators} (cfg : config) (i : nat)
  (message : MessageEvent) (c : connection) : connection :=
  match parsed message with
  | None => update_socket i socket_close c
  | Some m =>
      if decide (command m = 0%Z) then
        if info_verified cfg m then on_info i message m c else c
      else
        with_router (on_reply i message m (router c)) c
  end.

(** ** close (lines 168-174) *)

Definition close (c : connection) : connection :=
  let c1 := with_sockets (forEach terminate (sockets c)) c in
  let c2 := with_loop (clearTimeout (synchronizationTimeout c1) (loop c1)) c1 in
  with_loop (emit (EInfo 0 None) (loop c2)) c2.

(** ** sendCommand (lines 193-229)

    The body below is the callback given to [Promise.all(...).then]; it runs
    once the [open] promise of every socket of the call has resolved.  The
    result is the promise handed back, [None] for [undefined]. *)
Definition sendCommand (command : Z) (payload : object) (c : connection)
  : connection * option nat :=
  let r := router c in
  let key := correlation_key command payload in
  match responsesByKey r !! key with
  | Some rs => (c, Some (promise rs))
  | None =>
      let rq : request := (command, payload) in
      let c1 :=
        if decide (command ≠ 3%Z) then
          with_router
            {| responsesByKey :=
                 <[key := {| slots := []; promise := next_promise r |}]> (responsesByKey r);
               requestsByKey := counts_put (requestsByKey r) key rq;
               settled := settled r;
               next_promise := S (next_promise r) |} c
        else c in
      (with_sockets (forEach (send_when_open rq) (sockets c1)) c1,
       if decide (command ≠ 3%Z) then Some (next_promise r) else None)
  end.

(** ** synchronizationRoutine and open (lines 234-315) *)

Definition synchronizationRoutine (cfg : config) (c : connection) : connection :=
  let t := tracker c in
  let c1 :=
    if decide (clock (loop c) - latestSynchronizationTimestamp t
               > synchronizationInterval cfg)%Z
    then
      with_loop (emit (EInfo 0 None) (loop c))
        (with_tracker
           {| latestSynchronizationTimestamp := latestSynchronizationTimestamp t;
              latestSyncStatus := 0;
              statusResponses := statusResponses t |} c)
    else c in
  let '(l, h) := setTimeout Watchdog (synchronizationInterval cfg) (loop c1) in
  with_timeout (Some h) (with_loop l c1).

(** [open()] with no index, lines 244-311.  [sockets = []] forgets the
    sockets of an earlier [open()] without closing them; they are not
    followed any further here. *)
Definition open (cfg : config) (c : connection) : connection :=
  synchronizationRoutine cfg
    (foldl (λ c i, openSocket cfg i c) (with_sockets [] c)
       (seq 0 NUMBER_OF_CONNECTIONS)).

(** The variables of lines 71-78 at the time [now], then [connection.open()]
    of line 367. *)
Definition initial (now : Z) : connection :=
  {| sockets := [];
     synchronizationTimeout := None;
     tracker := {| latestSynchronizationTimestamp := 0;
                   latestSyncStatus := 0;
                   statusResponses := [] |};
     router := {| responsesByKey := ∅; requestsByKey := [];
                  settled := []; next_promise := 0 |};
     loop := {| clock := now; timers := []; next_handle := 0; emitted := [] |} |}.

Definition createConnection (cfg : config) (now : Z) : connection :=
  open cfg (initial now).

(** ** Timers *)

Definition run_callback (cfg : config) (a : callback) (c : connection) : connection :=
  match a with
  | Watchdog => synchronizationRoutine cfg c
  | Reconnect i => openSocket cfg i c
  end.

Definition pending_timer (h : nat) (c : connection) : option timer :=
  list_find (λ t, handle t = h) (timers (loop c)) ≫= λ it, Some it.2.

(** The timer [h] fires at the time [now]; a timer never fires early. *)
Definition fire (cfg : config) (h : nat) (now : Z) (c : connection) : connection :=
  match pending_timer h c with
  | Some t =>
      if decide (due t ≤ now)%Z then
        let l := loop c in
        run_callback cfg (action t)
          (with_loop {| clock := now;
                        timers := filter (λ t', handle t' ≠ h) (timers l);
                        next_handle := next_handle l;
                        emitted := emitted l |} c)
      else c
  | None => c
  end.

(** A handler that runs at the time [now]. *)
Definition at_now (now : Z) (c : connection) : connection :=
  with_loop (at_time now (loop c)) c.

(** ** The client's outbox (lines 425-649)

    The durable store maps a digest to the stored message and signature.
    Calls that cross an [await] or a [then] are split at that point: the
    part still to run is kept as a continuation, resumed by the scheduler
    when the awaited operation completes, or abandoned when it fails.  The
    history of the store and of the events is kept in [trace], which also
    survives a restart of the process. *)
Module Client.

(** The reply to a status query, as [infoListener] reads it. *)
Record status := {
  inclusionState : bool;
  reason : option string;
  status_tick : Z;
  status_epoch : Z;
}.

Inductive action :=
  | Put (digest message signature : string)   (* db.put completed *)
  | Del (digest : string)                     (* db.del completed *)
  | Submit (message signature : string)       (* sendCommand(3, ..) called *)
  | Query (digest : string)                   (* sendCommand(4, ..) called *)
  | Inclusion (digest : string) (tick epoch : Z)
  | Rejection (digest : string) (reason : string).

Inductive continuation :=
  | AwaitPut (digest message signature : string)      (* line 550, put issued *)
  | ThenSubmit (digest message signature : string)    (* line 552 *)
  | AwaitStatus (id : nat) (key : string)             (* line 460 *)
  | AwaitDel (id : nat) (key : string) (tick epoch : Z) (* line 462, del issued *)
  | ThenInclusion (id : nat) (key : string) (tick epoch : Z). (* lines 463-478 *)

#[global] Instance continuation_eq_dec : EqDecision continuation.
Proof. solve_decision. Defined.

Record client := {
  db : gmap string (string * string);
  put_handlers : nat;                 (* handlers attached by db.on('put', ..) *)
  listeners : list (nat * string);    (* attached info listeners and their keys *)
  infoListeners : list (nat * string);(* the array of line 451 *)
  next_listener : nat;
  suspended : list continuation;
  trace : list action;
}.

Definition log (a : action) (c : client) : client :=
  {| db := db c; put_handlers := put_handlers c; listeners := listeners c;
     infoListeners := infoListeners c; next_listener := next_listener c;
     suspended := suspended c; trace := trace c ++ [a] |}.

Definition suspend (k : continuation) (c : client) : client :=
  {| db := db c; put_handlers := put_handlers c; listeners := listeners c;
     infoListeners := infoListeners c; next_listener := next_listener c;
     suspended := suspended c ++ [k]; trace := trace c |}.

Fixpoint remove_first (k : continuation) (l : list continuation) : list continuation :=
  match l with
  | [] => []
  | k' :: rest => if decide (k' = k) then rest else k' :: remove_first k rest
  end.

Definition unsuspend (k : continuation) (c : client) : client :=
  {| db := db c; put_handlers := put_handlers c; listeners := listeners c;
     infoListeners := infoListeners c; next_listener := next_listener c;
     suspended := remove_first k (suspended c); trace := trace c |}.

Definition with_db (v : gmap string (string * string)) (c : client) : client :=
  {| db := v; put_handlers := put_handlers c; listeners := listeners c;
     infoListeners := infoListeners c; next_listener := next_listener c;
     suspended := suspended c; trace := trace c |}.

(** [onTransaction(key)], lines 457-495: a new info listener. *)
Definition onTransaction (key : string) (c : client) : client :=
  {| db := db c; put_handlers := put_handlers c;
     listeners := listeners c ++ [(next_listener c, key)];
     infoListeners := infoListeners c ++ [(next_listener c, key)];
     next_listener := S (next_listener c);
     suspended := suspended c; trace := trace c |}.

(** [that.removeListener('info', infoListener)]. *)
Definition removeListener (id : nat) (c : client) : client :=
  {| db := db c; put_handlers := put_handlers c;
     listeners := filter (λ l, l.1 ≠ id) (listeners c);
     infoListeners := infoListeners c; next_listener := next_listener c;
     suspended := suspended c; trace := trace c |}.

(** [infoListener] up to its first [await], lines 458-460. *)
Definition infoListener (id : nat) (key : string) (syncStatus : nat)
  (c : client) : client :=
  if decide (2 < syncStatus)
  then suspend (AwaitStatus id key) (log (Query key) c)
  else c.

(** [emit('info', {syncStatus})] reaching the listeners of the outbox. *)
Definition info (syncStatus : nat) (c : client) : client :=
  foldl (λ c l, infoListener l.1 l.2 syncStatus c) c (listeners c).

(** [db.on('put', onTransaction)] and
    [db.createKeyStream().on('data', onTransaction)], lines 498-499 and
    642-643. *)
Definition watch_outbox (c : client) : client :=
  foldl (λ c key, onTransaction key c)
    {| db := db c; put_handlers := S (put_handlers c); listeners := listeners c;
       infoListeners := infoListeners c; next_listener := next_listener c;
       suspended := suspended c; trace := trace c |}
    (map_to_list (db c)).*1.

(** The process starts: [client(..)] over the store as it is. *)
Definition restart (c : client) : client :=
  watch_outbox
    {| db := db c; put_handlers := 0; listeners := []; infoListeners := [];
       next_listener := 0; suspended := []; trace := trace c |}.

Definition launch (c : client) : client := watch_outbox c.

(** [terminate], lines 617-625: the listeners of [infoListeners] are removed. *)
Definition terminate (c : client) : client :=
  foldl (λ c l, removeListener l.1 c) c (infoListeners c).

(** [transaction(params)] from line 550 on, for the transfer built at
    lines 540-548: the put is issued. *)
Definition transaction (messageDigest message signature : string)
  (c : client) : client :=
  suspend (AwaitPut messageDigest message signature) c.

(** The awaited operation of [k] completes ([response] is the reply
    awaited at line 460). *)
Definition resume (k : continuation) (response : status) (c : client) : client :=
  if decide (k ∈ suspended c) then
    let c := unsuspend k c in
    match k with
    | AwaitPut d m s =>
        let c := log (Put d m s) (with_db (<[d := (m, s)]> (db c)) c) in
        suspend (ThenSubmit d m s) (Nat.iter (put_handlers c) (onTransaction d) c)
    | ThenSubmit d m s => log (Submit m s) c
    | AwaitStatus id key =>
        if inclusionState response then
          suspend (AwaitDel id key (status_tick response) (status_epoch response)) c
        else if truthy (reason response) then
          log (Rejection key (default EmptyString (reason response))) c
        else c
    | AwaitDel id key t e =>
        suspend (ThenInclusion id key t e)
          (log (Del key) (with_db (delete key (db c)) c))
    | ThenInclusion id key t e =>
        log (Inclusion key t e) (removeListener id c)
    end
  else c.

Inductive label :=
  | Restart
  | Launch
  | Terminate
  | Transaction (messageDigest message signature : string)
  | Info (syncStatus : nat)
  | Resume (k : continuation) (response : status)
  | Abandon (k : continuation).

Definition step (l : label) (c : client) : client :=
  match l with
  | Restart => restart c
  | Launch => launch c
  | Terminate => terminate c
  | Transaction d m s => transaction d m s c
  | Info n => info n c
  | Resume k r => resume k r c
  | Abandon k => unsuspend k c
  end.

(** A fresh store and no history. *)
Definition empty : client :=
  {| db := ∅; put_handlers := 0; listeners := []; infoListeners := [];
     next_listener := 0; suspended := []; trace := [] |}.

Definition run (ls : list label) : client := foldl (λ c l, step l c) empty ls.

(** The write-ahead order on a history: a submission comes after the put
    of its message and signature, an inclusion after a put and a delete
    of its digest. *)
Definition before (a : action) (pre : list action) : Prop :=
  match a with
  | Submit m s => ∃ d, Put d m s ∈ pre
  | Inclusion d _ _ => (∃ m s, Put d m s ∈ pre) ∧ Del d ∈ pre
  | _ => True
  end.

Definition write_ahead (tr : list action) : Prop :=
  ∀ pre a post, tr = pre ++ a :: post → before a pre.

Definition was_put (d : string) (tr : list action) : Prop :=
  ∃ m s, Put d m s ∈ tr.

(** What a suspended continuation relies on having happened. *)
Definition justified (k : continuation) (tr : list action) : Prop :=
  match k with
  | AwaitPut _ _ _ => True
  | ThenSubmit d m s => Put d m s ∈ tr
  | AwaitStatus _ key | AwaitDel _ key _ _ => was_put key tr
  | ThenInclusion _ key _ _ => was_put key tr ∧ Del key ∈ tr
  end.

Record invariant (c : client) : Prop := {
  inv_db : ∀ d, is_Some (db c !! d) → was_put d (trace c);
  inv_listeners : ∀ l, l ∈ listeners c → was_put l.2 (trace c);
  inv_suspended : ∀ k, k ∈ suspended c → justified k (trace c);
  inv_trace : write_ahead (trace c);
}.

End Client.

(** ** Inputs used in the examples *)

(** A verifier that accepts one message only, under any key and signature. *)
Definition accepts_only (expected : list Z) : Collaborators :=
  {| SchnorrQ_Verify := λ _ message _ _, if decide (message = expected) then 1%Z else 0%Z;
     shiftedHexToBytes := λ _, [];
     base64_decode := λ _, [] |}.

(** A verifier that accepts everything. *)
Definition accepts_all : Collaborators :=
  {| SchnorrQ_Verify := λ _ _ _ _, 1%Z;
     shiftedHexToBytes := λ _, [];
     base64_decode := λ _, [] |}.

Definition example_config : config :=
  {| computors := ["wss://AA.computor.com"; "wss://AB.computor.com";
                   "wss://AC.computor.com"];
     synchronizationInterval := 60000;
     adminPublicKey := "97CC65D1E59351EEFC776BCFF197533F148A8105DA84129C051F70DD9CA0FF82";
     reconnectTimeoutDuration := 100 |}.

Definition info_message (e t : Z) (sig : string) : parsedMessage :=
  {| command := 0; epoch := e; tick := t; signature := sig; fields := ∅ |}.

Definition info_frame (text : string) (e t : Z) (sig : string) : MessageEvent :=
  {| data := text; parsed := Some (info_message e t sig) |}.

(** The double quote character, for the text of JSON frames. *)
Definition dq : string := String (Ascii.ascii_of_nat 34) EmptyString.

(** The text [{"command":c,"identity":"id","k":v}] and its parse. *)
Definition reply_frame (c : Z) (id : string) (k v : string) : MessageEvent :=
  {| data := "{" +:+ dq +:+ "command" +:+ dq +:+ ":" +:+ pretty c +:+ ","
               +:+ dq +:+ "identity" +:+ dq +:+ ":" +:+ dq +:+ id +:+ dq +:+ ","
               +:+ dq +:+ k +:+ dq +:+ ":" +:+ v +:+ "}";
     parsed := Some {| command := c; epoch := 0; tick := 0;
                       signature := EmptyString;
                       fields := {[ "identity" := id ]} |} |}.

(** The text [{"command":0,"epoch":e,"tick":t,"signature":"sig"}] and its parse. *)
Definition signed_info (e t : Z) (sig : string) : MessageEvent :=
  info_frame ("{" +:+ dq +:+ "command" +:+ dq +:+ ":0,"
                +:+ dq +:+ "epoch" +:+ dq +:+ ":" +:+ pretty e +:+ ","
                +:+ dq +:+ "tick" +:+ dq +:+ ":" +:+ pretty t +:+ ","
                +:+ dq +:+ "signature" +:+ dq +:+ ":" +:+ dq +:+ sig +:+ dq +:+ "}")
    e t sig.

(** A connection whose three sockets have opened, at the time [now]. *)
Definition opened (cfg : config) (now : Z) : connection :=
  socket_onopen 2 (socket_onopen 1 (socket_onopen 0 (createConnection cfg now))).

(** ** Coalescing, as the specification states it *)

(** The frames handed to each socket so far. *)
Definition outbound (c : connection) : list (option (list request)) :=
  (λ o, match o with Some s => Some (sent s) | None => None end) <$> sockets c.



(** ** Runs of a connection *)

(** What reaches a connection: socket events, inbound frames, calls of its
    methods, and timers falling due. *)
Inductive input :=
  | SocketOpen (i : nat)
  | SocketClose (i : nat)
  | SocketError (i : nat)
  | Message (i : nat) (message : MessageEvent)
  | Command (command : Z) (payload : object)
  | Fire (h : nat)
  | CallClose
  | CallOpen.

(** The handler for [x], run at the time [now]. *)
Definition react `{Collaborators} (cfg : config) (now : Z) (x : input)
  (c : connection) : connection :=
  match x with
  | SocketOpen i => socket_onopen i (at_now now c)
  | SocketClose i => socket_onclose cfg i (at_now now c)
  | SocketError i => socket_onerror i (at_now now c)
  | Message i message => onmessage cfg i message (at_now now c)
  | Command command payload => (sendCommand command payload (at_now now c)).1
  | Fire h => fire cfg h now c
  | CallClose => close (at_now now c)
  | CallOpen => open cfg (at_now now c)
  end.

Definition execute `{Collaborators} (cfg : config) (start : Z)
  (xs : list (Z * input)) : connection :=
  foldl (λ c x, react cfg x.1 x.2 c) (createConnection cfg start) xs.

(** ** The watchdog, fired on time *)

(** The pending timer that [synchronizationTimeout] refers to. *)
Definition watchdog_timer (c : connection) : option timer :=
  synchronizationTimeout c ≫= λ h, pending_timer h c.

(** [n] consecutive firings of the watchdog, each at its due time, with
    nothing else happening in between. *)
Fixpoint watchdog_fires (cfg : config) (n : nat) (c : connection) : connection :=
  match n with
  | 0 => c
  | S n' =>
      match watchdog_timer c with
      | Some t => watchdog_fires cfg n' (fire cfg (handle t) (due t) c)
      | None => c
      end
  end.

(** Handles are handed out in increasing order. *)
Definition handles_fresh (c : connection) : Prop :=
  Forall (λ t, handle t < next_handle (loop c)) (timers (loop c)).

(** Views of the sockets: which close handlers are attached, and the
    ready states. *)
Definition close_handlers (c : connection) : list (option bool) :=
  (λ o, match o with Some s => Some (onclose s) | None => None end) <$> sockets c.

Definition ready_states (c : connection) : list (option readyState) :=
  (λ o, match o with Some s => Some (ready s) | None => None end) <$> sockets c.

(** A transfer that is put, submitted, queried at full sync, found
    included, deleted and announced. *)
Definition included_transfer : list Client.label :=
  [ Client.Restart;
    Client.Transaction "D1" "bWVzc2FnZQ==" "c2ln";
    Client.Resume (Client.AwaitPut "D1" "bWVzc2FnZQ==" "c2ln")
      (Client.Build_status false None 0 0);
    Client.Resume (Client.ThenSubmit "D1" "bWVzc2FnZQ==" "c2ln")
      (Client.Build_status false None 0 0);
    Client.Info 3;
    Client.Resume (Client.AwaitStatus 0 "D1") (Client.Build_status true None 100 10);
    Client.Resume (Client.AwaitDel 0 "D1" 100 10) (Client.Build_status false None 0 0);
    Client.Resume (Client.ThenInclusion 0 "D1" 100 10)
      (Client.Build_status false None 0 0) ].

(** ** Invariants along runs *)

(** The two maps of the router and the promises of its futures. *)
Record router_ok (r : routing) : Prop := {
  ok_keys : NoDup (requestsByKey r).*1;
  ok_sync : ∀ key,
    is_Some (responsesByKey r !! key) ↔ is_Some (counts_own (requestsByKey r) key);
  ok_requests : ∀ key cmd payload,
    (key, (cmd, payload)) ∈ requestsByKey r →
    cmd ≠ 3%Z ∧ key = correlation_key cmd payload;
  ok_pending : ∀ key rs,
    responsesByKey r !! key = Some rs →
    promise rs < next_promise r ∧ promise rs ∉ (settled r).*1;
  ok_settled : ∀ p, p ∈ (settled r).*1 → p < next_promise r;
  ok_once : NoDup (settled r).*1;
  ok_distinct : ∀ key key' rs rs',
    responsesByKey r !! key = Some rs → responsesByKey r !! key' = Some rs' →
    promise rs = promise rs' → key = key';
}.

(** The slot index of every inbound frame is one of the connections. *)
Definition slots_in_range (xs : list (Z * input)) : Prop :=
  Forall (λ x, match x.2 with
               | Message i _ => i < NUMBER_OF_CONNECTIONS
               | _ => True
               end) xs.

(** The sync level, the status vector and the levels announced so far. *)
Definition tracker_bounded (c : connection) : Prop :=
  latestSyncStatus (tracker c) < NUMBER_OF_CONNECTIONS ∧
  length (statusResponses (tracker c)) ≤ NUMBER_OF_CONNECTIONS ∧
  ∀ time q et, (time, EInfo q et) ∈ emitted (loop c) → q ≤ NUMBER_OF_CONNECTIONS.



(** ** The outbox: what precedes a query, a delete and a rejection *)

Definition preceded (a : Client.action) (pre : list Client.action) : Prop :=
  match a with
  | Client.Query d => Client.was_put d pre
  | Client.Del d | Client.Rejection d _ => Client.Query d ∈ pre
  | _ => True
  end.

Definition queried_first (tr : list Client.action) : Prop :=
  ∀ pre a post, tr = pre ++ a :: post → preceded a pre.

(** What a continuation that waits for a status, or follows one, relies on. *)
Definition queried (k : Client.continuation) (tr : list Client.action) : Prop :=
  match k with
  | Client.AwaitStatus _ key | Client.AwaitDel _ key _ _ => Client.Query key ∈ tr
  | _ => True
  end.

(** The state of the queries: every query logged so far came after the
    put of its digest, every delete and rejection after a query, and the
    continuations that wait for a status or follow one have their query
    logged. *)
Definition query_state (c : Client.client) : Prop :=
  (∀ k, k ∈ Client.suspended c → queried k (Client.trace c)) ∧
  queried_first (Client.trace c).

(** A digest that was put is still stored unless its delete completed. *)
Definition kept (c : Client.client) : Prop :=
  ∀ d, Client.was_put d (Client.trace c) →
       is_Some (Client.db c !! d) ∨ Client.Del d ∈ Client.trace c.

(** ** Environment listeners (lines 583-607)

    [connection.sendCommand] hands back a promise; the table of line 452
    stores it under the environment.  A promise has neither [addListener]
    nor [removeListener], so the call of that method throws a TypeError. *)
Inductive outcome :=
  | Returned
  | Threw (error : string).

Record environments := {
  emittersByEnvironment : gset string;
  issued : list request;          (* calls of connection.sendCommand *)
}.

Definition addEnvironmentListener (environment : string) (e : environments)
  : environments * outcome :=
  let e' :=
    if decide (environment ∈ emittersByEnvironment e) then e
    else {| emittersByEnvironment := {[ environment ]} ∪ emittersByEnvironment e;
            issued := issued e ++ [(5%Z, {[ "environmentDigest" := environment ]})] |} in
  (e', Threw "TypeError").

Definition removeEnvironmentListener (environment : string) (e : environments)
  : environments * outcome :=
  if decide (environment ∈ emittersByEnvironment e) then
    ({| emittersByEnvironment := emittersByEnvironment e;
        issued := issued e ++ [(6%Z, {[ "environmentDigest" := environment ]})] |},
     Threw "TypeError")
  else (e, Returned).

Inductive environment_call :=
  | AddListener (environment : string)
  | RemoveListener (environment : string).

Definition call (x : environment_call) (e : environments) : environments * outcome :=
  match x with
  | AddListener environment => addEnvironmentListener environment e
  | RemoveListener environment => removeEnvironmentListener environment e
  end.

Definition calls (xs : list environment_call) : environments :=
  foldl (λ e x, (call x e).1)
    {| emittersByEnvironment := ∅; issued := [] |} xs.

(** Every attached info listener is in the array of line 451. *)
Definition recorded (c : Client.client) : Prop :=
  ∀ l, l ∈ Client.listeners c → l ∈ Client.infoListeners c.

(** ** The wrappers of crypto/index.js *)

(** The hash of the FourQ/K12 module: the bytes it writes for an input and
    a requested length. *)
Class Hash := {
  KangarooTwelve : list Z → nat → list Z;
}.

(** [target.set(source, offset)]: a RangeError ([None]) when the source
    does not fit. *)
Definition TypedArray_set (target source : list Z) (offset : nat) : option (list Z) :=
  if decide (length source + offset ≤ length target)
  then Some (take offset target ++ source ++ drop (offset + length source) target)
  else None.

(** [K12], lines 121-133: the module writes into a zeroed buffer of
    [outputLength] bytes, which is then copied into [output]. *)
Definition K12 `{Hash} (input output : list Z) (outputLength outputOffset : nat)
  : option (list Z) :=
  let o := resize outputLength 0%Z (KangarooTwelve input outputLength) in
  TypedArray_set output o outputOffset.

(** A typed array as a window on the module's heap. *)
Record heap_view := {
  byteOffset : nat;
  view_length : nat;            (* in elements *)
  BYTES_PER_ELEMENT : nat;
}.

(** [view.subarray(begin, end)]. *)
Definition subarray (src : heap_view) (begin end_ : nat) : heap_view :=
  let b := begin `min` view_length src in
  let e := end_ `min` view_length src in
  {| byteOffset := byteOffset src + b * BYTES_PER_ELEMENT src;
     view_length := e - b;
     BYTES_PER_ELEMENT := BYTES_PER_ELEMENT src |}.

(** [allocU8], lines 5-12, and [allocU16], lines 14-19, as far as the
    window goes: [ptr] is the byte address that [Module._malloc(l)]
    returned. *)
Definition allocU8 (HEAPU8 : heap_view) (ptr l : nat) : heap_view :=
  subarray HEAPU8 ptr (ptr + l).


(** * Properties *)

(** ** The comparator *)

Example compareResponses_split :
  compareResponses [Some "a"; Some "a"; Some "b"] = 2.
Proof. reflexivity. Qed.

Example compareResponses_none_agree :
  compareResponses [Some "a"; Some "b"; Some "c"] = 1.
Proof. reflexivity. Qed.

Example compareResponses_slot1_only :
  compareResponses (array_set [] 1 "a") = 1.
Proof. reflexivity. Qed.

Example compareResponses_slot2_only :
  compareResponses (array_set [] 2 "a") = 2.
Proof. reflexivity. Qed.

Example compareResponses_inherited :
  compareResponses [Some "valueOf"; Some "valueOf"; Some "valueOf"] = 0.
Proof. reflexivity. Qed.

Section counts.
Context {V : Type}.
Implicit Types (counts : list (string * V)) (k : string).

Lemma counts_own_put_eq counts k v :
  counts_own (counts_put counts k v) k = Some v.
Proof.
  induction counts as [|[k' v'] rest IH]; simpl.
  - by rewrite decide_True.
  - destruct (decide (k' = k)) as [->|Hne]; simpl.
    + by rewrite decide_True.
    + by rewrite decide_False.
Qed.

Lemma counts_own_put_ne counts k k' v :
  k ≠ k' → counts_own (counts_put counts k v) k' = counts_own counts k'.
Proof.
  intros Hne. induction counts as [|[k0 v0] rest IH]; simpl.
  - by rewrite decide_False.
  - destruct (decide (k0 = k)) as [->|Hne0]; simpl.
    + by rewrite !decide_False.
    + destruct (decide (k0 = k')); [done | apply IH].
Qed.

Lemma counts_own_None counts k :
  counts_own counts k = None ↔ k ∉ counts.*1.
Proof.
  induction counts as [|[k' v'] rest IH]; simpl.
  - split; [intros _; apply not_elem_of_nil | done].
  - rewrite not_elem_of_cons. destruct (decide (k' = k)) as [->|Hne].
    + split; [done | intros [? _]; done].
    + rewrite IH. split; [intros ?; split; [congruence | done] | by intros [_ ?]].
Qed.

Lemma counts_put_keys counts k v :
  (counts_put counts k v).*1 =
    if decide (k ∈ counts.*1) then counts.*1 else counts.*1 ++ [k].
Proof.
  induction counts as [|[k' v'] rest IH].
  - case_decide as Hin; [by inversion Hin | done].
  - cbn [counts_put]. destruct (decide (k' = k)) as [->|Hne].
    + rewrite decide_True; [reflexivity |].
      rewrite fmap_cons. apply elem_of_cons; by left.
    + rewrite !fmap_cons, IH. cbn [fst].
      destruct (decide (k ∈ rest.*1)) as [Hin|Hnin].
      * rewrite decide_True; [done | apply elem_of_cons; by right].
      * rewrite decide_False; [done |].
        rewrite not_elem_of_cons. split; [congruence | done].
Qed.

Lemma counts_put_NoDup counts k v :
  NoDup counts.*1 → NoDup (counts_put counts k v).*1.
Proof.
  intros Hnd. rewrite counts_put_keys. case_decide; [done |].
  apply NoDup_app. split_and!; [done | | apply NoDup_singleton].
  intros x Hx Hx'. apply list_elem_of_singleton in Hx'. by subst.
Qed.

Lemma counts_own_elem_of counts k v :
  NoDup counts.*1 → (k, v) ∈ counts ↔ counts_own counts k = Some v.
Proof.
  induction counts as [|[k' v'] rest IH]; simpl; intros Hnd.
  - split; [by intros ?%elem_of_nil | done].
  - apply NoDup_cons in Hnd as [Hnin Hnd]. rewrite elem_of_cons.
    destruct (decide (k' = k)) as [->|Hne].
    + split.
      * intros [[= ->]|Hin]; [done |].
        destruct Hnin. apply list_elem_of_fmap. by exists (k, v).
      * intros [= ->]. by left.
    + rewrite <-IH by done. split; [intros [[= ? ?]|?]; [done | done] | by right].
Qed.
End counts.

Lemma occurrences_snoc x l y :
  occurrences x (l ++ [y]) = occurrences x l + (if decide (y = x) then 1 else 0).
Proof.
  unfold occurrences. rewrite filter_app, length_app. f_equal.
  rewrite filter_cons, filter_nil. by case_decide.
Qed.

Lemma occurrences_pos x l : 0 < occurrences x l ↔ x ∈ l.
Proof.
  unfold occurrences. split.
  - intros Hpos. destruct (filter _ l) as [|y ?] eqn:Hf; [simpl in Hpos; lia |].
    assert (y ∈ filter (λ y, y = x) l) as [-> ?]%list_elem_of_filter; [|done].
    rewrite Hf. apply elem_of_cons; by left.
  - intros Hin. assert (x ∈ filter (λ y, y = x) l) as Hx
      by by apply list_elem_of_filter.
    destruct (filter _ l); [by apply elem_of_nil in Hx | simpl; lia].
Qed.

Lemma counts_bump_clean counts p r :
  inherited (ToString r) = false →
  counts_of counts p →
  counts_bump counts r =
    counts_put counts (ToString r) (CNum (S (occurrences (ToString r) p))).
Proof.
  intros Hclean [_ Hown]. unfold counts_bump. cbv zeta.
  rewrite Hown, Hclean. destruct (decide (occurrences (ToString r) p = 0)) as [Hz|Hz].
  - by rewrite Hz.
  - done.
Qed.

Lemma counts_of_bump counts p r :
  inherited (ToString r) = false →
  counts_of counts p → counts_of (counts_bump counts r) (p ++ [ToString r]).
Proof.
  intros Hclean Hcounts. rewrite (counts_bump_clean counts p r Hclean Hcounts).
  destruct Hcounts as [Hnd Hown].
  split; [by apply counts_put_NoDup |].
  intros k. rewrite occurrences_snoc. destruct (decide (ToString r = k)) as [<-|Hne].
  - rewrite counts_own_put_eq. rewrite decide_False by lia. do 2 f_equal. lia.
  - rewrite counts_own_put_ne by done. by rewrite Hown, Nat.add_0_r.
Qed.

Lemma counts_of_foldl rs :
  Forall (λ r, inherited (ToString r) = false) rs →
  counts_of (foldl counts_bump [] rs) (ToString <$> rs).
Proof.
  induction rs as [|r rs IH] using rev_ind; intros Hclean.
  - split; [apply NoDup_nil_2 | done].
  - apply Forall_app in Hclean as [Hrs Hr]. rewrite Forall_singleton in Hr.
    rewrite foldl_snoc, fmap_app. apply counts_of_bump; [exact Hr | by apply IH].
Qed.

Lemma sync_max_foldl vs n0 ns :
  vs = CNum <$> ns → foldl sync_max n0 vs = n0 `max` max_list ns.
Proof.
  intros ->. revert n0. induction ns as [|n ns IH]; intros n0; simpl; [lia |].
  rewrite IH. case_decide; lia.
Qed.

(** [Object.values] lists integer-like keys first; the order in which the
    second loop meets the counts does not matter. *)
Lemma sync_max_swap n a b :
  sync_max (sync_max n a) b = sync_max (sync_max n b) a.
Proof. destruct a, b; cbn; repeat case_decide; lia. Qed.

Lemma sync_max_Permutation vs vs' n :
  vs ≡ₚ vs' → foldl sync_max n vs = foldl sync_max n vs'.
Proof.
  intros Hperm. revert n.
  induction Hperm as [|v vs vs' _ IH|a b vs|vs1 vs2 vs3 _ IH1 _ IH2]; intros n; cbn.
  - done.
  - apply IH.
  - by rewrite sync_max_swap.
  - by rewrite IH1.
Qed.

(** What the code computes on payloads that do not name a member of
    [Object.prototype]: the multiplicity of the mode of the slot keys, an
    absent slot contributing the key ["undefined"]. *)
Lemma compareResponses_mode rs :
  Forall (λ r, inherited (ToString r) = false) rs →
  compareResponses rs = mode_multiplicity (ToString <$> rs).
Proof.
  intros Hclean. destruct (counts_of_foldl rs Hclean) as [Hnd Hown].
  unfold compareResponses. set (counts := foldl counts_bump [] rs) in *.
  set (p := ToString <$> rs) in *.
  assert (∀ k v, (k, v) ∈ counts → v = CNum (occurrences k p) ∧ k ∈ p) as Hin.
  { intros k v Hkv. apply counts_own_elem_of in Hkv; [|done].
    rewrite Hown in Hkv. case_decide; [done |]. injection Hkv as <-.
    split; [done | apply occurrences_pos; lia]. }
  assert (counts.*2 = CNum <$> ((λ kv, occurrences kv.1 p) <$> counts)) as Hvals.
  { rewrite <-list_fmap_compose. apply list_fmap_ext. intros i [k v] Hkv.
    apply list_elem_of_lookup_2 in Hkv. simpl. by destruct (Hin k v Hkv) as [-> _]. }
  rewrite (sync_max_foldl _ _ _ Hvals). simpl. unfold mode_multiplicity.
  apply Nat.le_antisymm.
  - destruct (decide (counts = [])) as [->|Hne]; [simpl; lia |].
    assert (max_list ((λ kv, occurrences kv.1 p) <$> counts)
              ∈ (λ kv, occurrences kv.1 p) <$> counts) as Hmax.
    { apply max_list_elem_of. by destruct counts. }
    apply list_elem_of_fmap in Hmax as ([k v] & -> & Hkv). simpl.
    apply max_list_elem_of_le, list_elem_of_fmap. exists k.
    split; [done | by destruct (Hin k v Hkv)].
  - destruct (decide (p = [])) as [->|Hne]; [simpl; lia |].
    assert (max_list ((λ x, occurrences x p) <$> p) ∈ (λ x, occurrences x p) <$> p)
      as Hmax by (apply max_list_elem_of; by destruct p).
    apply list_elem_of_fmap in Hmax as (k & -> & Hk).
    apply max_list_elem_of_le, list_elem_of_fmap.
    assert (counts_own counts k = Some (CNum (occurrences k p))) as Hk'.
    { rewrite Hown. apply occurrences_pos in Hk. rewrite decide_False; [done | lia]. }
    apply counts_own_elem_of in Hk'; [|done]. by exists (k, CNum (occurrences k p)).
Qed.

(** Every slot filled and no payload naming a member of [Object.prototype]:
    the code and the specification's comparator agree. *)
Lemma compareResponses_dense (payloads : list string) :
  Forall (λ x, inherited x = false) payloads →
  compareResponses (Some <$> payloads) = quorum_size (Some <$> payloads).
Proof.
  intros Hclean. rewrite compareResponses_mode.
  - unfold quorum_size, present. f_equal.
    induction payloads as [|x l IH]; [done |]. cbn. f_equal.
    apply IH. by apply Forall_cons in Hclean as [_ ?].
  - apply Forall_fmap. eapply Forall_impl; [exact Hclean | done].
Qed.

Lemma mode_multiplicity_ge x l : occurrences x l ≤ mode_multiplicity l.
Proof.
  destruct (decide (x ∈ l)) as [Hin|Hnin].
  - apply max_list_elem_of_le, list_elem_of_fmap. by exists x.
  - assert (occurrences x l = 0) as ->; [|lia].
    destruct (occurrences x l) eqn:Ho; [done |].
    destruct Hnin. apply occurrences_pos. lia.
Qed.

(** Two slots with the same payload are seen as an agreement. *)
Lemma compareResponses_agreement rs x :
  Forall (λ r, inherited (ToString r) = false) rs →
  2 ≤ occurrences x (ToString <$> rs) → 2 ≤ compareResponses rs.
Proof.
  intros Hclean Hx. rewrite compareResponses_mode by done.
  etransitivity; [exact Hx | apply mode_multiplicity_ge].
Qed.

(** C1.  The comparator does not ignore absent slots: a hole below the
    array's length is counted under the key "undefined".  When only the
    third slot of a three-slot vector is filled the code returns 2, whereas
    the mode of the present payloads has multiplicity 1. *)
Theorem compareResponses_counts_absent_slots :
  array_set [] 2 "x" = [None; None; Some "x"] ∧
  compareResponses [None; None; Some "x"] = 2 ∧
  quorum_size [None; None; Some "x"] = 1.
Proof. split_and!; reflexivity. Qed.

(** ** The signed info payload *)

Lemma info_buffer_bytes (e t : Z) :
  info_buffer e t =
    [ byte_of (e mod 2 ^ 32) 3; byte_of (e mod 2 ^ 32) 2;
      byte_of (e mod 2 ^ 32) 1; byte_of (e mod 2 ^ 32) 0;
      byte_of (t mod 2 ^ 16) 1; byte_of (t mod 2 ^ 16) 0 ]%Z.
Proof. reflexivity. Qed.

Example info_buffer_10_100 : info_buffer 10 100 = [0; 0; 0; 10; 0; 100]%Z.
Proof. reflexivity. Qed.

Example info_buffer_wraps :
  info_buffer (2 ^ 32 + 258) 65537 = [0; 0; 1; 2; 0; 1]%Z.
Proof. reflexivity. Qed.

Section info.
Context `{Collaborators}.

(** The decision to accept an info message does not look at its epoch
    and tick. *)
Lemma info_verified_ignores_epoch_tick cfg m m' :
  signature m = signature m' → info_verified cfg m = info_verified cfg m'.
Proof. intros Hsig. unfold info_verified, verify_arguments. simpl. by rewrite Hsig. Qed.

(** C2.  The six-byte buffer is built as stated, but it is not what
    reaches [schnorrq.verify]: [Uint8Array.from] applied to the
    ArrayBuffer yields an empty array, so the signature is checked
    against the empty message (with length 0) for every epoch and tick. *)
Theorem verify_receives_empty_message cfg m :
  length (info_buffer (epoch m) (tick m)) = 6 ∧
  verify_arguments cfg m =
    (shiftedHexToBytes (adminPublicKey cfg), [], base64_decode (signature m)) ∧
  info_verified cfg m =
    bool_decide (SchnorrQ_Verify (shiftedHexToBytes (adminPublicKey cfg)) [] 0
                   (base64_decode (signature m)) = 1%Z).
Proof. split_and!; reflexivity. Qed.
End info.

(** With a verifier that accepts exactly the signed six bytes of
    (epoch 10, tick 100), the genuine info message is dropped. *)
Example genuine_info_is_dropped :
  let H := accepts_only [0; 0; 0; 10; 0; 100]%Z in
  let c := createConnection example_config 1000000 in
  onmessage example_config 0 (signed_info 10 100 "c2ln") c = c.
Proof. reflexivity. Qed.

(** With a verifier that accepts the empty message, any epoch and tick
    pass. *)
Example any_info_is_accepted :
  let H := accepts_only [] in
  let c := createConnection example_config 1000000 in
  emitted (loop (onmessage example_config 0 (signed_info 77 7 "c2ln") c)) =
    [(1000000, EInfo 0 None); (1000000, EInfo 1 (Some (77, 7)))]%Z.
Proof. reflexivity. Qed.

(** ** Holes in the response vectors *)

(** Whatever the payload, a vector that holds only its third slot compares
    as an agreement of at least two. *)
Lemma compareResponses_third_slot_only (d : string) :
  2 ≤ compareResponses (array_set [] 2 d).
Proof.
  change (array_set [] 2 d) with [None; None; Some d].
  unfold compareResponses. cbn [foldl].
  change (counts_bump (counts_bump [] None) None) with [("undefined", CNum 2)].
  unfold counts_bump. cbn [ToString counts_own].
  destruct (decide ("undefined" = d)) as [<-|Hd]; [vm_compute; lia |].
  destruct (inherited d); [destruct (decide (d = "__proto__")) |];
    cbn [counts_put]; rewrite ?decide_False by done; cbn;
    repeat case_decide; lia.
Qed.

(** ** The request router *)

Lemma counts_own_delete {V} (counts : list (string * V)) (k : string) :
  counts_own (counts_delete counts k) k = None.
Proof.
  apply counts_own_None. unfold counts_delete.
  intros ([k' v] & -> & [Hne _]%list_elem_of_filter)%list_elem_of_fmap. done.
Qed.

(** Both settlements evict the pending entry and the stored request. *)
Lemma settle_and_delete_evicts key p o r :
  responsesByKey (settle_and_delete key p o r) !! key = None ∧
  counts_own (requestsByKey (settle_and_delete key p o r)) key = None ∧
  settled (settle_and_delete key p o r) = settled r ++ [(p, o)].
Proof.
  split_and!; [apply lookup_delete_eq | apply counts_own_delete | done].
Qed.

(** A pending request whose first reply comes from the third peer is
    resolved with that single reply. *)
Lemma on_reply_third_peer_first message m r rs :
  responsesByKey r !! correlation_key (command m) (fields m) = Some rs →
  slots rs = [] →
  on_reply 2 message m r =
    settle_and_delete (correlation_key (command m) (fields m)) (promise rs)
      (Resolved m) r.
Proof.
  intros Hkey Hslots. unfold on_reply. cbv zeta. rewrite Hkey, Hslots.
  rewrite decide_True; [done | apply compareResponses_third_slot_only].
Qed.

(** When the reply just stored agrees with another slot the future is
    resolved with the parsed reply, and the entry is evicted. *)
Lemma on_reply_agreement i message m r rs :
  responsesByKey r !! correlation_key (command m) (fields m) = Some rs →
  Forall (λ x, inherited (ToString x) = false)
    (array_set (slots rs) i (data message)) →
  2 ≤ occurrences (data message) (ToString <$> array_set (slots rs) i (data message)) →
  on_reply i message m r =
    settle_and_delete (correlation_key (command m) (fields m)) (promise rs)
      (Resolved m) r.
Proof.
  intros Hkey Hclean Hagree. unfold on_reply. cbv zeta. rewrite Hkey.
  rewrite decide_True; [done |]. by eapply compareResponses_agreement.
Qed.

(** C3.  The future is settled on the holes of the reply vector, not on
    agreement of actual replies: with one reply, from the third peer, it is
    resolved at once; with two disagreeing replies, from the first and the
    third peer, it is rejected although the second slot is still empty. *)
Theorem reply_settles_on_holes :
  let H := accepts_all in
  let cfg := example_config in
  let c := (sendCommand 1 {[ "identity" := "A" ]} (opened cfg 0)).1 in
  let r7 := reply_frame 1 "A" "identityNonce" "7" in
  let r9 := reply_frame 1 "A" "identityNonce" "9" in
  (promise <$> responsesByKey (router c) !! "1A") = Some 0 ∧
  (Resolved <$> parsed r7) = (snd <$> settled (router (onmessage cfg 2 r7 c)) !! 0) ∧
  quorum_size (array_set [] 2 (data r7)) = 1 ∧
  settled (router (onmessage cfg 0 r7 c)) = [] ∧
  (slots <$> responsesByKey (router (onmessage cfg 0 r7 c)) !! "1A")
    = Some [Some (data r7)] ∧
  (snd <$> settled (router (onmessage cfg 2 r9 (onmessage cfg 0 r7 c))) !! 0)
    = Some (Rejected "Invalid responses.") ∧
  array_set [Some (data r7)] 2 (data r9) = [Some (data r7); None; Some (data r9)].
Proof. split_and!; vm_compute; reflexivity. Qed.

(** ** The sync tracker *)

(** An emission with [syncStatus = 3] clears the vector and the level. *)
Lemma on_info_full_sync_resets i message m c :
  latestSyncStatus (tracker c) <
    compareResponses (array_set (statusResponses (tracker c)) i (data message)) →
  compareResponses (array_set (statusResponses (tracker c)) i (data message))
    = NUMBER_OF_CONNECTIONS →
  tracker (on_info i message m c) =
    {| latestSynchronizationTimestamp := clock (loop c);
       latestSyncStatus := 0; statusResponses := [] |} ∧
  emitted (loop (on_info i message m c)) =
    emitted (loop c) ++
      [(clock (loop c), EInfo NUMBER_OF_CONNECTIONS (Some (epoch m, tick m)))].
Proof.
  intros Hlt Hq. unfold on_info. cbv zeta.
  rewrite decide_True by done. rewrite decide_True by done.
  split; [done |]. cbn. by rewrite Hq.
Qed.

(** After the reset, an info from the third peer alone is announced with a
    level of at least two. *)
Lemma on_info_after_reset_third_peer message m c :
  statusResponses (tracker c) = [] →
  latestSyncStatus (tracker c) = 0 →
  ∃ q, 2 ≤ q ∧
    emitted (loop (on_info 2 message m c)) =
      emitted (loop c) ++ [(clock (loop c), EInfo q (Some (epoch m, tick m)))].
Proof.
  intros Hempty Hzero. unfold on_info. cbv zeta. rewrite Hempty, Hzero.
  pose proof (compareResponses_third_slot_only (data message)) as Hq.
  exists (compareResponses (array_set [] 2 (data message))). split; [done |].
  rewrite decide_True by lia. by case_decide.
Qed.

(** C4.  After the emission with [syncStatus = 3] the vector is emptied
    and the level is 0, but the next verified info is not always announced
    with a level of at most 1: when it comes from the third peer (slot 2)
    the two holes below it count as an agreement and the level announced
    is 2. *)
Theorem info_after_full_sync_from_third_peer :
  let H := accepts_all in
  let cfg := example_config in
  let tick100 := signed_info 10 100 "c2ln" in
  let tick101 := signed_info 10 101 "c2ln" in
  let c3 := onmessage cfg 2 tick100
              (onmessage cfg 1 tick100 (onmessage cfg 0 tick100 (opened cfg 0))) in
  (snd <$> drop 3 (emitted (loop c3))) =
    [EInfo 1 (Some (10, 100)); EInfo 2 (Some (10, 100)); EInfo 3 (Some (10, 100))]%Z ∧
  statusResponses (tracker c3) = [] ∧
  latestSyncStatus (tracker c3) = 0 ∧
  (snd <$> drop 6 (emitted (loop (onmessage cfg 0 tick101 c3)))) =
    [EInfo 1 (Some (10, 101))]%Z ∧
  (snd <$> drop 6 (emitted (loop (onmessage cfg 1 tick101 c3)))) =
    [EInfo 1 (Some (10, 101))]%Z ∧
  (snd <$> drop 6 (emitted (loop (onmessage cfg 2 tick101 c3)))) =
    [EInfo 2 (Some (10, 101))]%Z.
Proof. split_and!; vm_compute; reflexivity. Qed.

(** ** Correlation keys *)

Lemma correlation_key_without_identity_or_hash command (o : object) :
  o !! "identity" = None → o !! "hash" = None →
  correlation_key command o = pretty command +:+ "undefined".
Proof. intros Hi Hh. unfold correlation_key. by rewrite Hi, Hh. Qed.

(** C5.  The key never reads a [digest] (or [messageDigest]) property:
    it is [command.toString() + (identity || hash)].  Status queries
    (command 4) carry neither field, so each of them, and each of their
    replies, gets the key "4undefined"; a second query for another digest
    is answered with the pending future of the first and no frame is sent
    for it. *)
Theorem status_queries_share_one_key :
  let H := accepts_all in
  let c := opened example_config 0 in
  let first := sendCommand 4 {[ "messageDigest" := "D1" ]} c in
  let second := sendCommand 4 {[ "messageDigest" := "D2" ]} first.1 in
  correlation_key 4 {[ "messageDigest" := "D1" ]} = "4undefined" ∧
  correlation_key 4 {[ "messageDigest" := "D2" ]} = "4undefined" ∧
  correlation_key 4 {[ "digest" := "D1" ]} = "4undefined" ∧
  spec_key 4 {[ "digest" := "D1" ]} = "4D1" ∧
  spec_key 4 {[ "digest" := "D2" ]} = "4D2" ∧
  first.2 = Some 0 ∧ second.2 = Some 0 ∧
  outbound first.1 =
    [Some [(4%Z, {[ "messageDigest" := "D1" ]})];
     Some [(4%Z, {[ "messageDigest" := "D1" ]})];
     Some [(4%Z, {[ "messageDigest" := "D1" ]})]] ∧
  second.1 = first.1.
Proof. split_and!; vm_compute; reflexivity. Qed.

(** ** Coalescing *)




Lemma sendCommand_fresh command payload c :
  command ≠ 3%Z →
  responsesByKey (router c) !! correlation_key command payload = None →
  sendCommand command payload c =
    (with_sockets (forEach (send_when_open (command, payload)) (sockets c))
       (with_router
          {| responsesByKey :=
               <[correlation_key command payload :=
                   {| slots := []; promise := next_promise (router c) |}]>
                 (responsesByKey (router c));
             requestsByKey :=
               counts_put (requestsByKey (router c))
                 (correlation_key command payload) (command, payload);
             settled := settled (router c);
             next_promise := S (next_promise (router c)) |} c),
     Some (next_promise (router c))).
Proof.
  intros Hcmd Hkey. unfold sendCommand. cbv zeta.
  rewrite Hkey. by rewrite !decide_True by done.
Qed.



(** ** The watchdog *)

Section watchdog.
Variable cfg : config.

(** What one run of the routine does. *)
Lemma synchronizationRoutine_run c :
  let expired :=
    bool_decide (clock (loop c) - latestSynchronizationTimestamp (tracker c)
                 > synchronizationInterval cfg)%Z in
  let c' := synchronizationRoutine cfg c in
  latestSyncStatus (tracker c') =
    (if expired then 0 else latestSyncStatus (tracker c)) ∧
  latestSynchronizationTimestamp (tracker c') =
    latestSynchronizationTimestamp (tracker c) ∧
  emitted (loop c') =
    emitted (loop c) ++
      (if expired then [(clock (loop c), EInfo 0 None)] else []) ∧
  timers (loop c') =
    timers (loop c) ++
      [{| handle := next_handle (loop c); due := (clock (loop c) + synchronizationInterval cfg)%Z;
          action := Watchdog |}] ∧
  synchronizationTimeout c' = Some (next_handle (loop c)) ∧
  next_handle (loop c') = S (next_handle (loop c)) ∧
  clock (loop c') = clock (loop c).
Proof.
  cbv zeta. unfold synchronizationRoutine. cbv zeta.
  destruct (decide (clock (loop c) - latestSynchronizationTimestamp (tracker c)
                    > synchronizationInterval cfg)%Z) as [Hexp|Hexp].
  - rewrite bool_decide_eq_true_2 by done. by split_and!.
  - rewrite bool_decide_eq_false_2 by done. cbn. rewrite app_nil_r. by split_and!.
Qed.

Lemma pending_timer_Some h c t :
  pending_timer h c = Some t → handle t = h ∧ t ∈ timers (loop c).
Proof.
  unfold pending_timer. destruct (list_find _ _) as [[i t']|] eqn:Hfind; [|done].
  intros [= <-]. apply list_find_Some in Hfind as (Hi & Hh & _).
  split; [done |]. by eapply list_elem_of_lookup_2.
Qed.

Lemma pending_timer_snoc_fresh h l t c :
  timers (loop c) = l ++ [t] → handle t = h →
  Forall (λ t', handle t' ≠ h) l →
  pending_timer h c = Some t.
Proof.
  intros Hl Hh Hfresh. unfold pending_timer. rewrite Hl.
  assert (list_find (λ t', handle t' = h) (l ++ [t]) = Some (length l, t)) as ->;
    [|done].
  apply list_find_Some. split_and!.
  - by rewrite lookup_app_r, Nat.sub_diag.
  - done.
  - intros j y Hj Hlt. rewrite lookup_app_l in Hj by done.
    eapply Forall_lookup_1 in Hfresh; eauto.
Qed.

(** One on-time firing of the watchdog: the routine runs at the due time
    and the next firing is due one interval later. *)
Lemma watchdog_fire_on_time c t :
  handles_fresh c →
  watchdog_timer c = Some t → action t = Watchdog →
  let c' := fire cfg (handle t) (due t) c in
  let expired :=
    bool_decide (due t - latestSynchronizationTimestamp (tracker c) > synchronizationInterval cfg)%Z in
  handles_fresh c' ∧
  (∃ t', watchdog_timer c' = Some t' ∧ action t' = Watchdog ∧
         due t' = (due t + synchronizationInterval cfg)%Z) ∧
  latestSynchronizationTimestamp (tracker c') =
    latestSynchronizationTimestamp (tracker c) ∧
  latestSyncStatus (tracker c') = (if expired then 0 else latestSyncStatus (tracker c)) ∧
  emitted (loop c') =
    emitted (loop c) ++ (if expired then [(due t, EInfo 0 None)] else []).
Proof.
  intros Hfresh Hw Hact. cbv zeta.
  unfold watchdog_timer in Hw.
  destruct (synchronizationTimeout c) as [h|] eqn:Hh; [|done]. cbn in Hw.
  pose proof (pending_timer_Some _ _ _ Hw) as [Hth Hin]. subst h.
  unfold fire. rewrite Hw, decide_True by lia. rewrite Hact. cbn [run_callback].
  set (c0 := with_loop _ c).
  pose proof (synchronizationRoutine_run c0) as Hrun. cbv zeta in Hrun.
  destruct Hrun as (Hst & Hts & Hem & Htm & Hto & Hnh & Hck).
  assert (Forall (λ t', handle t' < next_handle (loop c))
            (filter (λ t', handle t' ≠ handle t) (timers (loop c)))) as Hfilt.
  { apply Forall_forall. intros x [_ Hx]%list_elem_of_filter.
    by eapply Forall_forall in Hfresh. }
  split_and!.
  - unfold handles_fresh. rewrite Htm, Hnh. cbn. apply Forall_app. split.
    + eapply Forall_impl; [exact Hfilt |]. cbn. lia.
    + apply Forall_singleton. cbn. lia.
  - exists {| handle := next_handle (loop c0);
              due := (clock (loop c0) + synchronizationInterval cfg)%Z; action := Watchdog |}.
    split_and!; [| reflexivity | reflexivity].
    unfold watchdog_timer. rewrite Hto. cbn [mbind option_bind].
    eapply pending_timer_snoc_fresh; [exact Htm | reflexivity |].
    eapply Forall_impl; [exact Hfilt |]. cbn. lia.
  - by rewrite Hts.
  - by rewrite Hst.
  - by rewrite Hem.
Qed.

(** Liveness with on-time firings, by induction on the number of
    firings that remain before the expiry. *)
Lemma watchdog_reaches_expiry (k : nat) : ∀ c t,
  (0 < synchronizationInterval cfg)%Z →
  handles_fresh c →
  watchdog_timer c = Some t → action t = Watchdog →
  let expiry := (latestSynchronizationTimestamp (tracker c) + synchronizationInterval cfg)%Z in
  (due t ≤ expiry + synchronizationInterval cfg)%Z →
  (expiry < due t + Z.of_nat k * synchronizationInterval cfg)%Z →
  ∃ n time,
    (expiry < time ≤ expiry + synchronizationInterval cfg)%Z ∧
    latestSyncStatus (tracker (watchdog_fires cfg n c)) = 0 ∧
    last (emitted (loop (watchdog_fires cfg n c))) = Some (time, EInfo 0 None).
Proof.
  induction k as [|k IH]; intros c t Hpos Hfresh Hw Hact expiry Hle Hk;
    pose proof (watchdog_fire_on_time c t Hfresh Hw Hact) as Hfire;
    cbv zeta in Hfire;
    destruct Hfire as (Hfresh' & (t' & Hw' & Hact' & Hdue') & Hts & Hst & Hem);
    (destruct (decide (expiry < due t)%Z) as [Hexp|Hnot];
     [ exists 1, (due t); cbn [watchdog_fires]; rewrite Hw;
       rewrite bool_decide_eq_true_2 in Hst, Hem by (unfold expiry in Hexp; lia);
       split_and!; [lia | lia | done | rewrite Hem; apply last_snoc]
     | ]).
  - lia.
  - destruct (IH _ t' Hpos Hfresh' Hw' Hact') as (n & time & Htime & Hz & Hlast).
    + rewrite Hts, Hdue'. fold expiry. lia.
    + rewrite Hts, Hdue'. fold expiry. lia.
    + exists (S n), time. cbn [watchdog_fires]. rewrite Hw.
      rewrite Hts in Htime. split; [exact Htime | split; [exact Hz | exact Hlast]].
Qed.
End watchdog.

Lemma open_runs_routine cfg c :
  open cfg c =
    synchronizationRoutine cfg
      (openSocket cfg 2 (openSocket cfg 1 (openSocket cfg 0 (with_sockets [] c)))).
Proof. reflexivity. Qed.

Lemma openSocket_keeps cfg i c :
  tracker (openSocket cfg i c) = tracker c ∧
  loop (openSocket cfg i c) = loop c ∧
  router (openSocket cfg i c) = router c.
Proof. done. Qed.

Lemma createConnection_handles_fresh cfg now :
  handles_fresh (createConnection cfg now).
Proof.
  unfold handles_fresh, createConnection. rewrite open_runs_routine.
  set (c0 := openSocket cfg 2 _).
  pose proof (synchronizationRoutine_run cfg c0) as Hrun. cbv zeta in Hrun.
  destruct Hrun as (_ & _ & _ & Htm & _ & Hnh & _). rewrite Htm, Hnh.
  apply Forall_app. split; [apply Forall_nil, I | apply Forall_singleton; cbn; lia].
Qed.

(** C7.  Each run of the watchdog routine demotes and announces
    [syncStatus: 0] exactly when more than [synchronizationInterval] has
    elapsed since the latest progress timestamp, and rearms its timer one
    interval ahead in either case.  Hence, with on-time firings and no
    progress, [info{syncStatus: 0}] is emitted within one interval of the
    expiry. *)
Theorem watchdog_demotes_within_one_interval cfg c t :
  (0 < synchronizationInterval cfg)%Z →
  handles_fresh c →
  watchdog_timer c = Some t → action t = Watchdog →
  (due t ≤ latestSynchronizationTimestamp (tracker c)
           + synchronizationInterval cfg + synchronizationInterval cfg)%Z →
  (∀ c0,
     let expired :=
       bool_decide (clock (loop c0) - latestSynchronizationTimestamp (tracker c0)
                    > synchronizationInterval cfg)%Z in
     latestSyncStatus (tracker (synchronizationRoutine cfg c0)) =
       (if expired then 0 else latestSyncStatus (tracker c0)) ∧
     emitted (loop (synchronizationRoutine cfg c0)) =
       emitted (loop c0) ++
         (if expired then [(clock (loop c0), EInfo 0 None)] else []) ∧
     timers (loop (synchronizationRoutine cfg c0)) =
       timers (loop c0) ++
         [{| handle := next_handle (loop c0);
             due := (clock (loop c0) + synchronizationInterval cfg)%Z;
             action := Watchdog |}] ∧
     synchronizationTimeout (synchronizationRoutine cfg c0)
       = Some (next_handle (loop c0))) ∧
  (∃ t', watchdog_timer (fire cfg (handle t) (due t) c) = Some t' ∧
         action t' = Watchdog ∧
         due t' = (due t + synchronizationInterval cfg)%Z) ∧
  ∃ n time,
    (latestSynchronizationTimestamp (tracker c) + synchronizationInterval cfg < time
     ≤ latestSynchronizationTimestamp (tracker c)
       + synchronizationInterval cfg + synchronizationInterval cfg)%Z ∧
    latestSyncStatus (tracker (watchdog_fires cfg n c)) = 0 ∧
    last (emitted (loop (watchdog_fires cfg n c))) = Some (time, EInfo 0 None).
Proof.
  intros Hpos Hfresh Hw Hact Hdue. split_and!.
  - intros c0. pose proof (synchronizationRoutine_run cfg c0) as Hrun.
    cbv zeta in *. tauto.
  - pose proof (watchdog_fire_on_time cfg c t Hfresh Hw Hact) as Hfire.
    cbv zeta in Hfire. tauto.
  - set (expiry := (latestSynchronizationTimestamp (tracker c)
                    + synchronizationInterval cfg)%Z) in *.
    destruct (decide (expiry < due t)%Z).
    + apply (watchdog_reaches_expiry cfg 0 c t); try done. fold expiry. lia.
    + apply (watchdog_reaches_expiry cfg (Z.to_nat (expiry - due t + 1)) c t);
        try done. fold expiry. nia.
Qed.

Lemma watchdog_demotes_within_one_interval_witness :
  ∃ n time,
    (60000 < time ≤ 120000)%Z ∧
    latestSyncStatus
      (tracker (watchdog_fires example_config n (createConnection example_config 5))) = 0 ∧
    last (emitted (loop (watchdog_fires example_config n
                           (createConnection example_config 5))))
      = Some (time, EInfo 0 None).
Proof.
  apply (watchdog_demotes_within_one_interval example_config
           (createConnection example_config 5)
           {| handle := 0; due := 60005; action := Watchdog |}).
  - reflexivity.
  - repeat constructor.
  - reflexivity.
  - reflexivity.
  - vm_compute. discriminate.
Defined.

(** ** Start-up *)



(** ** Termination *)



(** The watchdog timer is cancelled. *)
Lemma close_cancels_watchdog c h :
  synchronizationTimeout c = Some h → pending_timer h (close c) = None.
Proof.
  intros Hh. unfold pending_timer.
  destruct (list_find _ _) as [[j t]|] eqn:Hfind; [|done].
  apply list_find_Some in Hfind as (Hj & Ht & _).
  apply list_elem_of_lookup_2 in Hj. unfold close in Hj. cbn in Hj.
  apply list_elem_of_filter in Hj as [Hne _]. rewrite Hh in Hne. congruence.
Qed.

(** Pending requests stay pending, nothing is settled. *)
Lemma close_leaves_futures c : router (close c) = router c.
Proof. reflexivity. Qed.

(** A reconnect timer that is pending when [close()] runs stays pending. *)
Lemma close_keeps_other_timers c t :
  t ∈ timers (loop c) → Some (handle t) ≠ synchronizationTimeout c →
  t ∈ timers (loop (close c)).
Proof. intros Hin Hne. unfold close. cbn. by apply list_elem_of_filter. Qed.

(** C9.  [close()] detaches the close handlers before closing, cancels
    the watchdog and leaves pending futures alone, but it does not drop a
    reconnect timer that is already pending: the handle of that timer is
    not kept anywhere.  When a peer has dropped less than
    [reconnectTimeoutDuration] before [close()], the timer fires afterwards
    and opens a new socket with its close handler attached. *)
Theorem reconnect_fires_after_close :
  let H := accepts_all in
  let cfg := example_config in
  let c0 := (sendCommand 1 {[ "identity" := "A" ]} (opened cfg 0)).1 in
  let c1 := socket_onclose cfg 0 (at_now 1000 c0) in
  let c2 := close (at_now 1050 c1) in
  let c3 := fire cfg 1 1100 c2 in
  timers (loop c1) =
    [{| handle := 0; due := 60000; action := Watchdog |};
     {| handle := 1; due := 1100; action := Reconnect 0 |}]%Z ∧
  timers (loop c2) = [{| handle := 1; due := 1100; action := Reconnect 0 |}]%Z ∧
  close_handlers c2 = [Some false; Some false; Some false] ∧
  ready_states c2 = [Some CLOSED; Some CLOSING; Some CLOSING] ∧
  router c2 = router c0 ∧ settled (router c2) = [] ∧
  (promise <$> responsesByKey (router c2) !! "1A") = Some 0 ∧
  last (emitted (loop c2)) = Some (1050%Z, EInfo 0 None) ∧
  close_handlers c3 = [Some true; Some false; Some false] ∧
  ready_states c3 = [Some CONNECTING; Some CLOSING; Some CLOSING] ∧
  drop 5 (emitted (loop (socket_onopen 0 (at_now 1200 c3)))) = [(1200%Z, EOpen 0)] ∧
  outbound (socket_onopen 0 (at_now 1200 c3)) !! 0 =
    Some (Some [(1%Z, {[ "identity" := "A" ]})]).
Proof. split_and!; vm_compute; reflexivity. Qed.

(** ** The outbox *)

Section outbox.
Import Client.
Implicit Types (c : client) (tr : list action) (k : continuation).

Ltac in_last := apply elem_of_app; right; by apply list_elem_of_singleton.
Ltac in_init := apply elem_of_app; by left.

Lemma was_put_snoc d tr a : was_put d tr → was_put d (tr ++ [a]).
Proof. intros (m & s & Hin). exists m, s. in_init. Qed.

Lemma justified_snoc k tr a : justified k tr → justified k (tr ++ [a]).
Proof.
  destruct k; cbn; try done.
  - intros ?. in_init.
  - apply was_put_snoc.
  - apply was_put_snoc.
  - intros [? ?]. split; [by apply was_put_snoc | in_init].
Qed.

Lemma write_ahead_nil : write_ahead [].
Proof. intros pre x post Heq. by destruct pre. Qed.

Lemma write_ahead_snoc tr a :
  write_ahead tr → before a tr → write_ahead (tr ++ [a]).
Proof.
  intros Htr Ha pre a' post Heq.
  induction post as [|b post _] using rev_ind.
  - apply app_inj_tail in Heq as [-> ->]. exact Ha.
  - rewrite app_comm_cons, app_assoc in Heq.
    apply app_inj_tail in Heq as [-> _]. by eapply Htr.
Qed.

Lemma remove_first_subseteq k (l : list continuation) x :
  x ∈ remove_first k l → x ∈ l.
Proof.
  induction l as [|k' l IH]; cbn; [done |].
  destruct (decide (k' = k)); intros Hin; apply elem_of_cons.
  - by right.
  - apply elem_of_cons in Hin as [->|Hin]; [by left | right; by apply IH].
Qed.

Lemma invariant_log a c : invariant c → before a (trace c) → invariant (log a c).
Proof.
  intros [Hdb Hl Hs Ht] Ha. split; cbn.
  - intros d Hd. by apply was_put_snoc, Hdb.
  - intros l Hin. by apply was_put_snoc, Hl.
  - intros k Hin. by apply justified_snoc, Hs.
  - by apply write_ahead_snoc.
Qed.

Lemma invariant_suspend k c :
  invariant c → justified k (trace c) → invariant (suspend k c).
Proof.
  intros [Hdb Hl Hs Ht] Hk. split; cbn; try done.
  intros k' [Hin|Hin%list_elem_of_singleton]%elem_of_app; [by apply Hs | by subst].
Qed.

Lemma invariant_unsuspend k c : invariant c → invariant (unsuspend k c).
Proof.
  intros [Hdb Hl Hs Ht]. split; cbn; try done.
  intros k' Hin. by eapply Hs, remove_first_subseteq.
Qed.

Lemma invariant_onTransaction key c :
  invariant c → was_put key (trace c) → invariant (onTransaction key c).
Proof.
  intros [Hdb Hl Hs Ht] Hkey. split; cbn; try done.
  intros l [Hin|Hin%list_elem_of_singleton]%elem_of_app; [by apply Hl | by subst].
Qed.

Lemma invariant_removeListener id c : invariant c → invariant (removeListener id c).
Proof.
  intros [Hdb Hl Hs Ht]. split; cbn; try done.
  intros l [_ Hin]%list_elem_of_filter. by apply Hl.
Qed.

Lemma invariant_infoListener id key n c :
  invariant c → was_put key (trace c) →
  invariant (infoListener id key n c) ∧
  ∀ d, was_put d (trace c) → was_put d (trace (infoListener id key n c)).
Proof.
  intros Hinv Hkey. unfold infoListener. case_decide; [|done]. split.
  - apply invariant_suspend; [by apply invariant_log |].
    cbn. by apply was_put_snoc.
  - intros d Hd. cbn. by apply was_put_snoc.
Qed.

Lemma invariant_info n c : invariant c → invariant (info n c).
Proof.
  intros Hinv. unfold info.
  assert (∀ l, l ∈ listeners c → was_put l.2 (trace c)) as Hall
    by apply (inv_listeners _ Hinv).
  revert Hinv Hall. generalize (listeners c) as ls. intros ls. revert c.
  induction ls as [|l ls IH]; intros c Hinv Hall; [done |]. cbn.
  destruct (invariant_infoListener l.1 l.2 n c Hinv) as [Hinv' Hmono].
  { apply Hall, elem_of_cons. by left. }
  apply IH; [done |]. intros l' Hl'. apply Hmono, Hall, elem_of_cons. by right.
Qed.

Lemma invariant_watch_outbox c : invariant c → invariant (watch_outbox c).
Proof.
  intros Hinv. unfold watch_outbox.
  set (c0 := {| db := db c; put_handlers := S (put_handlers c) |}).
  assert (invariant c0) as Hinv0 by (by destruct Hinv).
  assert (∀ key, key ∈ (map_to_list (db c)).*1 → was_put key (trace c0)) as Hall.
  { intros key ([key' v] & -> & Hin%elem_of_map_to_list)%list_elem_of_fmap.
    apply (inv_db _ Hinv). by eexists. }
  clearbody c0. revert Hinv0 Hall. generalize ((map_to_list (db c)).*1) as keys.
  intros keys. revert c0. induction keys as [|key keys IH]; intros c0 Hinv0 Hall; [done |].
  cbn. apply IH.
  - apply invariant_onTransaction; [done |]. apply Hall, elem_of_cons. by left.
  - intros key' Hin. cbn. apply Hall, elem_of_cons. by right.
Qed.

Lemma invariant_restart c : invariant c → invariant (restart c).
Proof.
  intros [Hdb Hl Hs Ht]. apply invariant_watch_outbox. split; cbn; try done.
  - intros l Hin. by apply elem_of_nil in Hin.
  - intros k Hin. by apply elem_of_nil in Hin.
Qed.

Lemma invariant_terminate c : invariant c → invariant (terminate c).
Proof.
  intros Hinv. unfold terminate. generalize (infoListeners c) as ls. intros ls.
  revert c Hinv. induction ls as [|l ls IH]; intros c Hinv; [done |].
  cbn. by apply IH, invariant_removeListener.
Qed.

Lemma invariant_on_put d n c :
  invariant c → was_put d (trace c) → invariant (Nat.iter n (onTransaction d) c).
Proof.
  intros Hinv Hd. induction n as [|n IH]; [done |]. cbn.
  apply invariant_onTransaction; [done |].
  clear IH. induction n as [|n IH]; [done | by cbn].
Qed.

Lemma trace_on_put d n c : trace (Nat.iter n (onTransaction d) c) = trace c.
Proof. induction n as [|n IH]; [done | by cbn]. Qed.

Lemma invariant_resume k r c : invariant c → invariant (resume k r c).
Proof.
  intros Hinv. unfold resume. case_decide as Hin; [|done].
  pose proof (inv_suspended _ Hinv k Hin) as Hk.
  pose proof (invariant_unsuspend k c Hinv) as Hinv'.
  set (c' := unsuspend k c) in *.
  assert (trace c' = trace c) as Htr by done.
  destruct k as [d m s|d m s|id key|id key t e|id key t e]; cbn in Hk.
  - (* the put completes *)
    assert (invariant (log (Put d m s) (with_db (<[d:=(m, s)]> (db c')) c'))) as Hput.
    { destruct Hinv' as [Hdb Hl Hs Ht]. split; cbn.
      - intros d' Hd'. destruct (decide (d = d')) as [<-|Hne].
        + exists m, s. in_last.
        + rewrite lookup_insert_ne in Hd' by done. by apply was_put_snoc, Hdb.
      - intros l Hl'. by apply was_put_snoc, Hl.
      - intros k Hk'. by apply justified_snoc, Hs.
      - by apply write_ahead_snoc. }
    apply invariant_suspend.
    + apply invariant_on_put; [done |]. exists m, s. cbn. in_last.
    + unfold justified. rewrite trace_on_put. cbn. in_last.
  - (* the submission *)
    apply invariant_log; [done |]. cbn. rewrite ?Htr. by exists d.
  - (* the status reply *)
    destruct (inclusionState r).
    + apply invariant_suspend; [done |]. cbn. by rewrite ?Htr.
    + destruct (truthy (reason r)); [|done]. by apply invariant_log.
  - (* the delete completes *)
    apply invariant_suspend.
    + destruct Hinv' as [Hdb Hl Hs Ht]. split; cbn.
      * intros d' Hd'. apply was_put_snoc, Hdb.
        destruct (decide (key = d')) as [<-|Hne].
        -- rewrite lookup_delete_eq in Hd'. by destruct Hd'.
        -- by rewrite lookup_delete_ne in Hd'.
      * intros l Hl'. by apply was_put_snoc, Hl.
      * intros k Hk'. by apply justified_snoc, Hs.
      * by apply write_ahead_snoc.
    + cbn. rewrite ?Htr. split; [by apply was_put_snoc | in_last].
  - (* the inclusion event *)
    apply invariant_log; [by apply invariant_removeListener |].
    cbn. by rewrite ?Htr.
Qed.

Lemma invariant_step l c : invariant c → invariant (step l c).
Proof.
  intros Hinv. destruct l; cbn.
  - by apply invariant_restart.
  - by apply invariant_watch_outbox.
  - by apply invariant_terminate.
  - by apply invariant_suspend.
  - by apply invariant_info.
  - by apply invariant_resume.
  - by apply invariant_unsuspend.
Qed.

Lemma invariant_run ls : invariant (run ls).
Proof.
  unfold run. induction ls as [|l ls IH] using rev_ind.
  - split; cbn; try done.
    + intros d Hd. rewrite lookup_empty in Hd. by destruct Hd.
    + intros l Hl. by apply elem_of_nil in Hl.
    + intros k Hk. by apply elem_of_nil in Hk.
    + apply write_ahead_nil.
  - rewrite foldl_snoc. by apply invariant_step.
Qed.
End outbox.

Example included_transfer_trace :
  Client.trace (Client.run included_transfer) =
    [ Client.Put "D1" "bWVzc2FnZQ==" "c2ln"; Client.Submit "bWVzc2FnZQ==" "c2ln";
      Client.Query "D1"; Client.Del "D1"; Client.Inclusion "D1" 100 10 ] ∧
  Client.db (Client.run included_transfer) = ∅ ∧
  Client.listeners (Client.run included_transfer) = [].
Proof. split_and!; vm_compute; reflexivity. Qed.



(** ** Timer handles along a run *)

Lemma handles_fresh_same_timers c c' :
  timers (loop c') = timers (loop c) → next_handle (loop c') = next_handle (loop c) →
  handles_fresh c → handles_fresh c'.
Proof. unfold handles_fresh. by intros -> ->. Qed.

Lemma handles_fresh_fewer_timers c c' :
  timers (loop c') ⊆ timers (loop c) → next_handle (loop c') = next_handle (loop c) →
  handles_fresh c → handles_fresh c'.
Proof.
  unfold handles_fresh. intros Hsub -> Hfresh. apply Forall_forall.
  intros t Ht. eapply Forall_forall in Hfresh; [exact Hfresh | by apply Hsub].
Qed.

Lemma handles_fresh_setTimeout a delay c :
  handles_fresh c → handles_fresh (with_loop (setTimeout a delay (loop c)).1 c).
Proof.
  unfold handles_fresh. cbn. intros Hfresh. apply Forall_app. split.
  - eapply Forall_impl; [exact Hfresh |]. cbn. lia.
  - apply Forall_singleton. cbn. lia.
Qed.

Lemma handles_fresh_synchronizationRoutine cfg c :
  handles_fresh c → handles_fresh (synchronizationRoutine cfg c).
Proof.
  intros Hfresh. pose proof (synchronizationRoutine_run cfg c) as Hrun.
  cbv zeta in Hrun. destruct Hrun as (_ & _ & _ & Htm & _ & Hnh & _).
  unfold handles_fresh. rewrite Htm, Hnh. apply Forall_app. split.
  - eapply Forall_impl; [exact Hfresh |]. cbn. lia.
  - apply Forall_singleton. cbn. lia.
Qed.

Lemma handles_fresh_on_info i message m c :
  handles_fresh c → handles_fresh (on_info i message m c).
Proof.
  apply handles_fresh_same_timers; unfold on_info; cbv zeta; by repeat case_decide.
Qed.

Section runs.
Context `{Collaborators}.

Lemma handles_fresh_react cfg now x c :
  handles_fresh c → handles_fresh (react cfg now x c).
Proof.
  intros Hfresh. assert (handles_fresh (at_now now c)) as Hnow by done.
  destruct x as [i|i|i|i message|command payload|h| |]; cbn [react].
  - revert Hnow. apply handles_fresh_same_timers;
      unfold socket_onopen; by destruct (array_get _ i).
  - unfold socket_onclose. destruct (array_get _ i) as [s|]; [|done].
    destruct (onclose s); [|done].
    by apply (handles_fresh_setTimeout (Reconnect i)
                (reconnectTimeoutDuration cfg)
                (update_socket i (resolve_open CLOSED [])
                   (with_loop (emit (EClose i) (loop (at_now now c))) (at_now now c)))).
  - done.
  - unfold onmessage. destruct (parsed message) as [m|]; [|done].
    case_decide; [|done]. destruct (info_verified cfg m); [|done].
    by apply handles_fresh_on_info.
  - revert Hnow. apply handles_fresh_same_timers;
      unfold sendCommand; cbv zeta; destruct (_ !! _); by repeat case_decide.
  - unfold fire. destruct (pending_timer h c) as [t|]; [|done].
    case_decide; [|done].
    set (c0 := with_loop _ c).
    assert (handles_fresh c0) as Hc0.
    { revert Hfresh. apply handles_fresh_fewer_timers; [|done].
      intros t' [_ Ht']%list_elem_of_filter. exact Ht'. }
    destruct (action t); cbn [run_callback];
      [by apply handles_fresh_synchronizationRoutine | done].
  - revert Hnow. apply handles_fresh_fewer_timers; [|done].
    intros t' [_ Ht']%list_elem_of_filter. exact Ht'.
  - unfold open. apply handles_fresh_synchronizationRoutine.
    generalize (seq 0 NUMBER_OF_CONNECTIONS) as idx. intros idx.
    assert (handles_fresh (with_sockets [] (at_now now c))) as Hstart by done.
    revert Hstart. generalize (with_sockets [] (at_now now c)) as c0.
    induction idx as [|i idx IH]; intros c0 Hc0; [done |]. cbn. by apply IH.
Qed.

(** In every state a run reaches, the handles of the pending timers are
    below the next handle. *)
Lemma handles_fresh_execute cfg start xs : handles_fresh (execute cfg start xs).
Proof.
  unfold execute. induction xs as [|x xs IH] using rev_ind.
  - apply createConnection_handles_fresh.
  - rewrite foldl_snoc. by apply handles_fresh_react.
Qed.
End runs.

(** * Further properties of the code *)

(** ** The comparator on arbitrary vectors *)

Lemma elem_of_counts_put {V} (counts : list (string * V)) k v x :
  x ∈ counts_put counts k v → x = (k, v) ∨ x ∈ counts.
Proof.
  induction counts as [|[k' v'] rest IH]; cbn.
  - intros ->%list_elem_of_singleton. by left.
  - destruct (decide (k' = k)); intros Hin; apply elem_of_cons in Hin as [->|Hin].
    + by left.
    + right. apply elem_of_cons. by right.
    + right. apply elem_of_cons. by left.
    + destruct (IH Hin) as [->|?]; [by left | right; apply elem_of_cons; by right].
Qed.

Lemma counts_own_Some_elem_of {V} (counts : list (string * V)) k v :
  counts_own counts k = Some v → (k, v) ∈ counts.
Proof.
  induction counts as [|[k' v'] rest IH]; cbn; [done |].
  case_decide as Hk.
  - intros [= ->]. subst. apply elem_of_cons. by left.
  - intros Hown. apply elem_of_cons. right. by apply IH.
Qed.

Lemma counts_bump_bounded counts r n :
  (∀ k m, (k, CNum m) ∈ counts → m ≤ n) →
  ∀ k m, (k, CNum m) ∈ counts_bump counts r → m ≤ S n.
Proof.
  intros Hb k m. unfold counts_bump. cbv zeta.
  destruct (counts_own counts (ToString r)) as [[n0|]|] eqn:Hown.
  - intros [[= _ ->]|Hin]%elem_of_counts_put.
    + apply counts_own_Some_elem_of, Hb in Hown. lia.
    + apply Hb in Hin. lia.
  - intros [[=]|Hin]%elem_of_counts_put. apply Hb in Hin. lia.
  - destruct (inherited (ToString r)); [case_decide |].
    + intros Hin. apply Hb in Hin. lia.
    + intros [[=]|Hin]%elem_of_counts_put. apply Hb in Hin. lia.
    + intros [[= _ ->]|Hin]%elem_of_counts_put; [lia |]. apply Hb in Hin. lia.
Qed.

Lemma counts_foldl_bounded rs : ∀ counts n,
  (∀ k m, (k, CNum m) ∈ counts → m ≤ n) →
  ∀ k m, (k, CNum m) ∈ foldl counts_bump counts rs → m ≤ n + length rs.
Proof.
  induction rs as [|r rs IH]; intros counts n Hb k m; cbn.
  - intros Hin. apply Hb in Hin. lia.
  - intros Hin. eapply IH in Hin; [|by apply counts_bump_bounded]. lia.
Qed.

Lemma sync_max_bounded vs : ∀ n0 n,
  n0 ≤ n → (∀ m, CNum m ∈ vs → m ≤ n) → foldl sync_max n0 vs ≤ n.
Proof.
  induction vs as [|v vs IH]; intros n0 n Hn0 Hb; cbn; [done |].
  apply IH.
  - destruct v as [m|]; cbn; [|done]. case_decide; [|done].
    apply Hb, elem_of_cons. by left.
  - intros m Hm. apply Hb, elem_of_cons. by right.
Qed.

Lemma compareResponses_length_bound (rs : js_array) :
  compareResponses rs ≤ length rs.
Proof.
  unfold compareResponses. cbv zeta. apply sync_max_bounded; [lia |].
  intros m ([k v] & Hv & Hin)%list_elem_of_fmap. cbn in Hv. subst v.
  eapply (counts_foldl_bounded rs [] 0) in Hin; [exact Hin |].
  intros ?? Hnil. by apply elem_of_nil in Hnil.
Qed.

(** Whatever the slots hold, holes included, the result never exceeds the
    length of the vector: at most 3 for the vectors of a connection. *)
Theorem compareResponses_le_length (rs : js_array) :
  compareResponses rs ≤ length rs.
Proof. exact (compareResponses_length_bound rs). Qed.

Lemma compareResponses_dense_witness :
  compareResponses (Some <$> ["a"; "b"; "a"]) = quorum_size (Some <$> ["a"; "b"; "a"]).
Proof. apply compareResponses_dense. by repeat constructor. Defined.

Lemma occurrences_Permutation x l l' : l ≡ₚ l' → occurrences x l = occurrences x l'.
Proof. intros Hp. unfold occurrences. by rewrite Hp. Qed.

Lemma mode_multiplicity_Permutation l l' :
  l ≡ₚ l' → mode_multiplicity l = mode_multiplicity l'.
Proof.
  intros Hp. unfold mode_multiplicity.
  rewrite (list_fmap_ext (λ x, occurrences x l) (λ x, occurrences x l') l).
  - by rewrite Hp.
  - intros _ x _. by apply occurrences_Permutation.
Qed.

(** Which peer sent which payload does not matter: permuting the slots
    (holes included) leaves the result unchanged. *)
Theorem compareResponses_Permutation (rs rs' : js_array) :
  Forall (λ r, inherited (ToString r) = false) rs →
  rs ≡ₚ rs' → compareResponses rs = compareResponses rs'.
Proof.
  intros Hclean Hp. rewrite !compareResponses_mode.
  - apply mode_multiplicity_Permutation. by rewrite Hp.
  - by rewrite <-Hp.
  - done.
Qed.

Lemma compareResponses_Permutation_witness :
  compareResponses [Some "a"; None; Some "b"] = compareResponses [None; Some "b"; Some "a"].
Proof.
  apply compareResponses_Permutation.
  - repeat constructor.
  - etransitivity; [apply Permutation_swap |]. apply perm_skip, Permutation_swap.
Defined.

(** ** The bytes of the signed buffer *)

Lemma byte_of_div (v k : Z) :
  (0 ≤ k)%Z → byte_of v k = ((v / 2 ^ (8 * k)) mod 256)%Z.
Proof.
  intros Hk. unfold byte_of. rewrite Z.shiftr_div_pow2 by lia.
  change 255%Z with (Z.ones 8). by rewrite Z.land_ones by lia.
Qed.

Lemma info_buffer_spells (e t : Z) :
  ∃ b0 b1 b2 b3 b4 b5,
    info_buffer e t = [b0; b1; b2; b3; b4; b5] ∧
    Forall (λ b, 0 ≤ b < 256)%Z [b0; b1; b2; b3; b4; b5] ∧
    (b0 * 2 ^ 24 + b1 * 2 ^ 16 + b2 * 2 ^ 8 + b3 = e mod 2 ^ 32)%Z ∧
    (b4 * 2 ^ 8 + b5 = t mod 2 ^ 16)%Z.
Proof.
  do 6 eexists. split; [apply info_buffer_bytes |].
  rewrite !byte_of_div by lia.
  pose proof (Z.mod_pos_bound e (2 ^ 32) ltac:(lia)) as He.
  pose proof (Z.mod_pos_bound t (2 ^ 16) ltac:(lia)) as Ht.
  set (v := (e mod 2 ^ 32)%Z) in *. set (w := (t mod 2 ^ 16)%Z) in *.
  change (8 * 3)%Z with 24%Z. change (8 * 2)%Z with 16%Z.
  change (8 * 1)%Z with 8%Z. change (8 * 0)%Z with 0%Z.
  split_and!.
  - repeat (apply Forall_cons; split; [apply Z.mod_pos_bound; lia |]).
    apply Forall_nil, I.
  - clearbody v. Z.to_euclidean_division_equations. lia.
  - clearbody w. Z.to_euclidean_division_equations. lia.
Qed.

(** The six bytes are octets and spell, most significant byte first, the
    epoch reduced to 32 bits and the tick reduced to 16 bits. *)
Theorem info_buffer_big_endian (e t : Z) :
  ∃ b0 b1 b2 b3 b4 b5,
    info_buffer e t = [b0; b1; b2; b3; b4; b5] ∧
    Forall (λ b, 0 ≤ b < 256)%Z [b0; b1; b2; b3; b4; b5] ∧
    (b0 * 2 ^ 24 + b1 * 2 ^ 16 + b2 * 2 ^ 8 + b3 = e mod 2 ^ 32)%Z ∧
    (b4 * 2 ^ 8 + b5 = t mod 2 ^ 16)%Z.
Proof. exact (info_buffer_spells e t). Qed.

(** Within the ranges of the wire format, different (epoch, tick) pairs
    give different buffers. *)
Theorem info_buffer_injective (e t e' t' : Z) :
  (0 ≤ e < 2 ^ 32)%Z → (0 ≤ t < 2 ^ 16)%Z →
  (0 ≤ e' < 2 ^ 32)%Z → (0 ≤ t' < 2 ^ 16)%Z →
  info_buffer e t = info_buffer e' t' → e = e' ∧ t = t'.
Proof.
  intros He Ht He' Ht' Heq.
  destruct (info_buffer_spells e t) as (b0 & b1 & b2 & b3 & b4 & b5 & Hb & _ & Hv & Hw).
  destruct (info_buffer_spells e' t')
    as (c0 & c1 & c2 & c3 & c4 & c5 & Hc & _ & Hv' & Hw').
  rewrite Hb, Hc in Heq. injection Heq as -> -> -> -> -> ->.
  rewrite Z.mod_small in Hv, Hv', Hw, Hw' by lia. lia.
Qed.

Lemma info_buffer_injective_witness :
  info_buffer 10 100 = info_buffer (5 + 5) (10 * 10) ∧
  (10 = 5 + 5 ∧ 100 = 10 * 10)%Z.
Proof.
  split; [reflexivity |].
  apply (info_buffer_injective 10 100 (5 + 5) (10 * 10)); [lia.. | reflexivity].
Defined.

(** ** The router along a run *)

Lemma counts_own_delete_ne {V} (counts : list (string * V)) k k' :
  k ≠ k' → counts_own (counts_delete counts k) k' = counts_own counts k'.
Proof.
  intros Hne. unfold counts_delete.
  induction counts as [|[k0 v0] rest IH]; [done |].
  rewrite filter_cons. cbn. destruct (decide (k0 ≠ k)) as [Hk0|Hk0]; cbn.
  - by rewrite IH.
  - rewrite IH. apply dec_stable in Hk0. subst k0. by rewrite decide_False.
Qed.

Lemma counts_delete_subseteq {V} (counts : list (string * V)) k x :
  x ∈ counts_delete counts k → x ∈ counts.
Proof. unfold counts_delete. by intros [_ ?]%list_elem_of_filter. Qed.

Lemma counts_delete_NoDup {V} (counts : list (string * V)) k :
  NoDup counts.*1 → NoDup (counts_delete counts k).*1.
Proof.
  unfold counts_delete. induction counts as [|[k0 v0] rest IH]; [done |].
  rewrite fmap_cons, NoDup_cons. intros [Hnin Hnd]. rewrite filter_cons.
  case_decide; [|by apply IH]. rewrite fmap_cons. apply NoDup_cons. split; [|by apply IH].
  intros ([k1 v1] & Hk & [_ Hin]%list_elem_of_filter)%list_elem_of_fmap.
  apply Hnin, list_elem_of_fmap. by exists (k1, v1).
Qed.

Lemma router_ok_settle key rs o r :
  router_ok r → responsesByKey r !! key = Some rs →
  router_ok (settle_and_delete key (promise rs) o r).
Proof.
  intros [Hk Hs Hr Hp Hse Ho Hd] Hkey. split; cbn.
  - by apply counts_delete_NoDup.
  - intros key'. destruct (decide (key = key')) as [<-|Hne].
    + rewrite lookup_delete_eq, counts_own_delete. split; intros [? ?]; done.
    + rewrite lookup_delete_ne, counts_own_delete_ne by done. apply Hs.
  - intros key' cmd payload Hin%counts_delete_subseteq. by apply Hr.
  - intros key' rs' Hkey'. destruct (decide (key = key')) as [<-|Hne].
    + by rewrite lookup_delete_eq in Hkey'.
    + rewrite lookup_delete_ne in Hkey' by done.
      destruct (Hp _ _ Hkey') as [Hlt Hnin]. split; [done |].
      rewrite fmap_app. intros [Hin|Hin%list_elem_of_singleton]%elem_of_app; [done |].
      cbn in Hin. apply Hne. symmetry. by eapply Hd.
  - intros p. rewrite fmap_app.
    intros [Hin|Hin%list_elem_of_singleton]%elem_of_app; [by apply Hse |].
    cbn in Hin. subst p. by apply (Hp _ _ Hkey).
  - rewrite fmap_app. apply NoDup_app. split_and!; [done | | apply NoDup_singleton].
    intros p Hin Hp'%list_elem_of_singleton. cbn in Hp'. subst p.
    by apply (Hp _ _ Hkey).
  - intros key1 key2 rs1 rs2 H1 H2.
    destruct (decide (key = key1)) as [<-|Hne1];
      [by rewrite lookup_delete_eq in H1 | rewrite lookup_delete_ne in H1 by done].
    destruct (decide (key = key2)) as [<-|Hne2];
      [by rewrite lookup_delete_eq in H2 | rewrite lookup_delete_ne in H2 by done].
    by eapply Hd.
Qed.

Lemma router_ok_on_reply i message m r : router_ok r → router_ok (on_reply i message m r).
Proof.
  intros Hok. unfold on_reply. cbv zeta.
  destruct (responsesByKey r !! _) as [rs|] eqn:Hkey; [|done].
  case_decide; [by apply router_ok_settle |].
  case_decide; [by apply router_ok_settle |].
  set (key := correlation_key (command m) (fields m)) in *.
  destruct Hok as [Hk Hs Hr Hp Hse Ho Hd]. split; cbn; try done.
  - intros key'. destruct (decide (key = key')) as [<-|Hne].
    + rewrite lookup_insert_eq. rewrite <-Hs, Hkey. split; intros _; by eexists.
    + rewrite lookup_insert_ne by done. apply Hs.
  - intros key' rs'. destruct (decide (key = key')) as [<-|Hne].
    + rewrite lookup_insert_eq. intros [= <-]. cbn. by apply (Hp key).
    + rewrite lookup_insert_ne by done. apply Hp.
  - intros key1 key2 rs1 rs2.
    destruct (decide (key = key1)) as [<-|Hne1];
      [rewrite lookup_insert_eq; intros [= <-] | rewrite lookup_insert_ne by done; intros H1];
      (destruct (decide (key = key2)) as [<-|Hne2];
       [rewrite lookup_insert_eq; intros [= <-] | rewrite lookup_insert_ne by done; intros H2]);
      cbn; intros Heq; try done; by eapply Hd.
Qed.

Lemma router_ok_sendCommand command payload c :
  router_ok (router c) → router_ok (router (sendCommand command payload c).1).
Proof.
  intros Hok. unfold sendCommand. cbv zeta.
  destruct (responsesByKey (router c) !! _) as [rs|] eqn:Hkey; [done |].
  cbn [fst]. destruct (decide (command ≠ 3%Z)) as [Hcmd|Hcmd]; [|done].
  cbn [router with_sockets with_router].
  set (key := correlation_key command payload) in *.
  destruct Hok as [Hk Hs Hr Hp Hse Ho Hd]. split; cbn.
  - by apply counts_put_NoDup.
  - intros key'. destruct (decide (key = key')) as [<-|Hne].
    + rewrite lookup_insert_eq, counts_own_put_eq. split; intros _; by eexists.
    + rewrite lookup_insert_ne, counts_own_put_ne by done. apply Hs.
  - intros key' cmd p [[= -> -> ->]|Hin]%elem_of_counts_put; [done | by apply Hr].
  - intros key' rs'. destruct (decide (key = key')) as [<-|Hne].
    + rewrite lookup_insert_eq. intros [= <-]. cbn. split; [lia |].
      intros Hin%Hse. lia.
    + rewrite lookup_insert_ne by done. intros Hkey'.
      destruct (Hp _ _ Hkey'). split; [lia | done].
  - intros p Hin%Hse. lia.
  - done.
  - intros key1 key2 rs1 rs2.
    destruct (decide (key = key1)) as [<-|Hne1];
      [rewrite lookup_insert_eq; intros [= <-] | rewrite lookup_insert_ne by done; intros H1];
      (destruct (decide (key = key2)) as [<-|Hne2];
       [rewrite lookup_insert_eq; intros [= <-] | rewrite lookup_insert_ne by done; intros H2]);
      cbn; intros Heq; try done.
    + apply Hp in H2 as [? _]. lia.
    + apply Hp in H1 as [? _]. lia.
    + by eapply Hd.
Qed.

Lemma router_synchronizationRoutine cfg c :
  router (synchronizationRoutine cfg c) = router c.
Proof. unfold synchronizationRoutine. cbv zeta. by case_decide. Qed.

Lemma router_on_info i message m c : router (on_info i message m c) = router c.
Proof. unfold on_info. cbv zeta. by repeat case_decide. Qed.

Lemma router_open cfg c : router (open cfg c) = router c.
Proof.
  unfold open. rewrite router_synchronizationRoutine.
  generalize (seq 0 NUMBER_OF_CONNECTIONS) as idx. intros idx.
  change (router c) with (router (with_sockets [] c)).
  generalize (with_sockets [] c) as c0.
  induction idx as [|i idx IH]; intros c0; [done |]. cbn. by rewrite IH.
Qed.

Section router_runs.
Context `{Collaborators}.

Lemma router_ok_react cfg now x c :
  router_ok (router c) → router_ok (router (react cfg now x c)).
Proof.
  intros Hok. destruct x as [i|i|i|i message|command payload|h| |]; cbn [react].
  - unfold socket_onopen. by destruct (array_get _ i).
  - unfold socket_onclose. destruct (array_get _ i) as [s|]; [|done].
    by destruct (onclose s).
  - done.
  - unfold onmessage. destruct (parsed message) as [m|]; [|done].
    case_decide.
    + destruct (info_verified cfg m); [by rewrite router_on_info | done].
    + by apply router_ok_on_reply.
  - by apply (router_ok_sendCommand command payload (at_now now c)).
  - unfold fire. destruct (pending_timer h c) as [t|]; [|done].
    case_decide; [|done].
    destruct (action t); cbn [run_callback];
      [by rewrite router_synchronizationRoutine | done].
  - done.
  - by rewrite router_open.
Qed.

Lemma router_ok_execute cfg start xs : router_ok (router (execute cfg start xs)).
Proof.
  unfold execute. induction xs as [|x xs IH] using rev_ind.
  - cbn [foldl]. unfold createConnection. rewrite router_open. split; cbn; try done.
    + apply NoDup_nil_2.
    + intros key. rewrite lookup_empty. split; intros [? ?]; done.
    + intros ??? Hin. by apply elem_of_nil in Hin.
    + intros p Hin. by apply elem_of_nil in Hin.
    + apply NoDup_nil_2.
  - rewrite foldl_snoc. by apply router_ok_react.
Qed.

(** In every state a run reaches, the pending futures and the stored
    requests have the same keys, each stored request is filed under its own
    correlation key, and none of them is a transfer submission (command 3):
    a submission is never replayed to a reconnecting peer. *)
Theorem stored_requests_along_run cfg start xs :
  let r := router (execute cfg start xs) in
  (∀ key, is_Some (responsesByKey r !! key) ↔ is_Some (counts_own (requestsByKey r) key)) ∧
  NoDup (requestsByKey r).*1 ∧
  ∀ key cmd payload,
    (key, (cmd, payload)) ∈ requestsByKey r →
    cmd ≠ 3%Z ∧ key = correlation_key cmd payload.
Proof.
  cbv zeta. destruct (router_ok_execute cfg start xs) as [Hk Hs Hr _ _ _ _].
  by split_and!.
Qed.

(** In every state a run reaches, no future has been settled twice, a
    pending future has not been settled, and two pending keys never share
    a future. *)
Theorem futures_settle_once cfg start xs :
  let r := router (execute cfg start xs) in
  NoDup (settled r).*1 ∧
  (∀ key rs, responsesByKey r !! key = Some rs → promise rs ∉ (settled r).*1) ∧
  (∀ key key' rs rs',
     responsesByKey r !! key = Some rs → responsesByKey r !! key' = Some rs' →
     promise rs = promise rs' → key = key').
Proof.
  cbv zeta. destruct (router_ok_execute cfg start xs) as [_ _ _ Hp _ Ho Hd].
  split_and!; [done | | done]. intros key rs Hkey. by apply (Hp _ _ Hkey).
Qed.
End router_runs.

(** ** The sync level along a run *)

Lemma length_array_set {A} (a : list (option A)) i v n :
  i < n → length a ≤ n → length (array_set a i v) ≤ n.
Proof.
  intros Hi Ha. unfold array_set. case_decide.
  - by rewrite length_insert.
  - rewrite !length_app, length_replicate. cbn. lia.
Qed.

Lemma tracker_bounded_same c c' :
  tracker c' = tracker c → emitted (loop c') = emitted (loop c) →
  tracker_bounded c → tracker_bounded c'.
Proof. unfold tracker_bounded. by intros -> ->. Qed.

Lemma tracker_bounded_emit e c :
  (∀ q et, e = EInfo q et → q ≤ NUMBER_OF_CONNECTIONS) →
  tracker_bounded c → tracker_bounded (with_loop (emit e (loop c)) c).
Proof.
  intros He (Hs & Hl & Hem). split_and!; [done | done |]. cbn.
  intros time q et [Hin|Hin%list_elem_of_singleton]%elem_of_app; [by eapply Hem |].
  injection Hin as _ Heq. by eapply He.
Qed.

Lemma tracker_bounded_demote c t :
  tracker_bounded c →
  tracker_bounded
    (with_tracker {| latestSynchronizationTimestamp := t; latestSyncStatus := 0;
                     statusResponses := statusResponses (tracker c) |} c).
Proof.
  intros (Hs & Hl & Hem).
  split_and!; cbn; [unfold NUMBER_OF_CONNECTIONS; lia | done | done].
Qed.

Lemma tracker_bounded_synchronizationRoutine cfg c :
  tracker_bounded c → tracker_bounded (synchronizationRoutine cfg c).
Proof.
  intros Hb. unfold synchronizationRoutine. cbv zeta.
  case_decide; cbn -[tracker_bounded].
  - eapply tracker_bounded_same; [reflexivity | reflexivity |].
    apply (tracker_bounded_emit (EInfo 0 None)
             (with_tracker {| latestSynchronizationTimestamp :=
                                latestSynchronizationTimestamp (tracker c);
                              latestSyncStatus := 0;
                              statusResponses := statusResponses (tracker c) |} c)).
    + intros q et [= <- _]. lia.
    + by apply tracker_bounded_demote.
  - revert Hb. by apply tracker_bounded_same.
Qed.

Lemma tracker_bounded_on_info i message m c :
  i < NUMBER_OF_CONNECTIONS →
  tracker_bounded c → tracker_bounded (on_info i message m c).
Proof.
  intros Hi (Hs & Hl & Hem). unfold on_info. cbv zeta.
  set (a' := array_set (statusResponses (tracker c)) i (data message)).
  assert (length a' ≤ NUMBER_OF_CONNECTIONS) as Ha' by by apply length_array_set.
  pose proof (compareResponses_length_bound a') as Hq.
  assert (∀ time q et,
            (time, EInfo q et) ∈
              emitted (loop c) ++
                [(clock (loop c), EInfo (compareResponses a') (Some (epoch m, tick m)))] →
            q ≤ NUMBER_OF_CONNECTIONS) as Hem'.
  { intros time q et [Hin|Hin%list_elem_of_singleton]%elem_of_app; [by eapply Hem |].
    injection Hin as _ -> _. lia. }
  repeat case_decide; split_and!; cbn; try done; try lia;
    unfold NUMBER_OF_CONNECTIONS in *; lia.
Qed.

Section tracker_runs.
Context `{Collaborators}.

Lemma tracker_bounded_react cfg now x c :
  match x with Message i _ => i < NUMBER_OF_CONNECTIONS | _ => True end →
  tracker_bounded c → tracker_bounded (react cfg now x c).
Proof.
  intros Hx Hb. assert (tracker_bounded (at_now now c)) as Hnow by done.
  destruct x as [i|i|i|i message|command payload|h| |]; cbn [react].
  - unfold socket_onopen. destruct (array_get _ i); [|done].
    eapply tracker_bounded_same; [reflexivity | reflexivity |].
    by apply (tracker_bounded_emit (EOpen i)).
  - unfold socket_onclose. destruct (array_get _ i) as [s|]; [|done].
    destruct (onclose s); [|done].
    eapply tracker_bounded_same; [reflexivity | reflexivity |].
    by apply (tracker_bounded_emit (EClose i)).
  - by apply (tracker_bounded_emit (EError i)).
  - unfold onmessage. destruct (parsed message) as [m|]; [|done].
    case_decide; [|done]. destruct (info_verified cfg m); [|done].
    by apply tracker_bounded_on_info.
  - revert Hnow. apply tracker_bounded_same;
      unfold sendCommand; cbv zeta; destruct (_ !! _); by repeat case_decide.
  - unfold fire. destruct (pending_timer h c) as [t|]; [|done].
    case_decide; [|done].
    destruct (action t); cbn [run_callback];
      [by apply tracker_bounded_synchronizationRoutine | done].
  - eapply tracker_bounded_same; [reflexivity | reflexivity |].
    apply (tracker_bounded_emit (EInfo 0 None)); [|done].
    intros q et [= <- _]. lia.
  - unfold open. apply tracker_bounded_synchronizationRoutine.
    generalize (seq 0 NUMBER_OF_CONNECTIONS) as idx. intros idx.
    assert (tracker_bounded (with_sockets [] (at_now now c))) as Hstart by done.
    revert Hstart. generalize (with_sockets [] (at_now now c)) as c0.
    induction idx as [|i idx IH]; intros c0 Hc0; [done |]. cbn. by apply IH.
Qed.

(** In every state a run reaches (inbound frames coming from the slots 0,
    1 and 2): the sync level kept between messages is 0, 1 or 2, the status
    vector has at most three slots, and every level announced in an info
    event is at most 3. *)
Theorem sync_level_bounded cfg start xs :
  slots_in_range xs →
  let c := execute cfg start xs in
  latestSyncStatus (tracker c) < NUMBER_OF_CONNECTIONS ∧
  length (statusResponses (tracker c)) ≤ NUMBER_OF_CONNECTIONS ∧
  ∀ time q et, (time, EInfo q et) ∈ emitted (loop c) → q ≤ NUMBER_OF_CONNECTIONS.
Proof.
  intros Hxs. cbv zeta. change (tracker_bounded (execute cfg start xs)).
  unfold execute. induction xs as [|x xs IH] using rev_ind.
  - cbn [foldl]. unfold createConnection, open.
    apply tracker_bounded_synchronizationRoutine.
    split_and!; cbn; [unfold NUMBER_OF_CONNECTIONS; lia | lia |].
    intros ??? Hin. by apply elem_of_nil in Hin.
  - apply Forall_app in Hxs as [Hxs Hx]. rewrite Forall_singleton in Hx.
    rewrite foldl_snoc. apply tracker_bounded_react; [exact Hx | by apply IH].
Qed.
End tracker_runs.

Lemma sync_level_bounded_witness :
  let H := accepts_all in
  let c := execute example_config 0
             [(10, Message 2 (signed_info 10 100 "c2ln"));
              (20, Message 0 (signed_info 10 100 "c2ln"));
              (30, Message 1 (signed_info 10 100 "c2ln"))]%Z in
  latestSyncStatus (tracker c) < NUMBER_OF_CONNECTIONS ∧
  length (statusResponses (tracker c)) ≤ NUMBER_OF_CONNECTIONS ∧
  ∀ time q et, (time, EInfo q et) ∈ emitted (loop c) → q ≤ NUMBER_OF_CONNECTIONS.
Proof.
  cbv zeta. apply (@sync_level_bounded accepts_all).
  repeat constructor.
Defined.

(** ** A quorum of two *)

Lemma compareResponses_one d :
  inherited d = false → compareResponses [Some d] = 1.
Proof.
  intros Hd. rewrite compareResponses_mode by (by repeat constructor).
  unfold mode_multiplicity, occurrences. cbn [fmap list_fmap ToString].
  rewrite !filter_cons, filter_nil. by rewrite !decide_True by done.
Qed.

Lemma compareResponses_two d :
  inherited d = false → compareResponses [Some d; Some d] = 2.
Proof.
  intros Hd. rewrite compareResponses_mode by (by repeat constructor).
  unfold mode_multiplicity, occurrences. cbn [fmap list_fmap ToString].
  rewrite !filter_cons, filter_nil. by rewrite !decide_True by done.
Qed.

(** A request is registered, the first peer replies, the second peer
    replies with the same text: nothing is settled by the first reply, the
    second one resolves the future with its parse and evicts the request,
    and any later reply for that key is ignored. *)
Theorem two_agreeing_replies_resolve cmd payload c message0 m0 message1 m1 :
  cmd ≠ 3%Z →
  responsesByKey (router c) !! correlation_key cmd payload = None →
  correlation_key (command m0) (fields m0) = correlation_key cmd payload →
  correlation_key (command m1) (fields m1) = correlation_key cmd payload →
  data message1 = data message0 →
  inherited (data message0) = false →
  let key := correlation_key cmd payload in
  let r1 := router (sendCommand cmd payload c).1 in
  let r2 := on_reply 0 message0 m0 r1 in
  let r3 := on_reply 1 message1 m1 r2 in
  settled r2 = settled (router c) ∧
  settled r3 = settled (router c) ++ [(next_promise (router c), Resolved m1)] ∧
  responsesByKey r3 !! key = None ∧
  counts_own (requestsByKey r3) key = None ∧
  ∀ i message m,
    correlation_key (command m) (fields m) = key → on_reply i message m r3 = r3.
Proof.
  intros Hcmd Hfresh Hk0 Hk1 Hdata Hclean. cbv zeta.
  rewrite (sendCommand_fresh _ _ _ Hcmd Hfresh). cbn [fst router with_sockets with_router].
  set (key := correlation_key cmd payload) in *.
  set (r1 := {| responsesByKey := _ |}).
  assert (on_reply 0 message0 m0 r1 =
          {| responsesByKey :=
               <[key := {| slots := [Some (data message0)];
                           promise := next_promise (router c) |}]> (responsesByKey r1);
             requestsByKey := requestsByKey r1; settled := settled r1;
             next_promise := next_promise r1 |}) as Hr2.
  { unfold on_reply. cbv zeta. rewrite Hk0. unfold r1 at 1. cbn [responsesByKey].
    rewrite lookup_insert_eq. cbn [slots promise].
    change (array_set [] 0 (data message0)) with [Some (data message0)].
    rewrite compareResponses_one by done.
    rewrite decide_False by lia. by rewrite decide_False by done. }
  rewrite Hr2. set (r2 := {| responsesByKey := <[key:=_]> (responsesByKey r1) |}).
  assert (on_reply 1 message1 m1 r2 =
          settle_and_delete key (next_promise (router c)) (Resolved m1) r2) as Hr3.
  { unfold on_reply. cbv zeta. rewrite Hk1. unfold r2 at 1. cbn [responsesByKey].
    rewrite lookup_insert_eq. cbn [slots promise]. rewrite Hdata.
    change (array_set [Some (data message0)] 1 (data message0))
      with [Some (data message0); Some (data message0)].
    rewrite compareResponses_two by done. by rewrite decide_True by lia. }
  rewrite Hr3.
  destruct (settle_and_delete_evicts key (next_promise (router c)) (Resolved m1) r2)
    as (Hgone & Hgone' & Hsettled).
  split_and!; [done | done | done | done |].
  intros i message m Hk. unfold on_reply. cbv zeta. by rewrite Hk, Hgone.
Qed.

Lemma two_agreeing_replies_resolve_witness :
  let c := opened example_config 0 in
  let r7 := reply_frame 1 "A" "identityNonce" "7" in
  let r3 := on_reply 1 r7 (default (info_message 0 0 "s") (parsed r7))
              (on_reply 0 r7 (default (info_message 0 0 "s") (parsed r7))
                 (router (sendCommand 1 {[ "identity" := "A" ]} c).1)) in
  settled r3 = settled (router c) ++
                 [(next_promise (router c),
                   Resolved (default (info_message 0 0 "s") (parsed r7)))].
Proof.
  cbv zeta.
  apply (two_agreeing_replies_resolve 1 {[ "identity" := "A" ]}
           (opened example_config 0)
           (reply_frame 1 "A" "identityNonce" "7")
           (default (info_message 0 0 "s") (parsed (reply_frame 1 "A" "identityNonce" "7")))
           (reply_frame 1 "A" "identityNonce" "7")
           (default (info_message 0 0 "s") (parsed (reply_frame 1 "A" "identityNonce" "7"))));
    try done; vm_compute; reflexivity.
Defined.

(** ** Reconnection *)

Lemma array_get_set_eq {A} (a : list (option A)) i v :
  array_get (array_set a i v) i = Some v.
Proof.
  unfold array_get, array_set. case_decide as Hi.
  - by rewrite list_lookup_insert_eq.
  - rewrite lookup_app_r by lia. rewrite lookup_app_r by (rewrite length_replicate; lia).
    rewrite length_replicate. by rewrite Nat.sub_diag.
Qed.

Lemma array_get_alter {A} (f : A → A) (a : list (option A)) i :
  array_get (alter (fmap f) i a) i = f <$> array_get a i.
Proof.
  unfold array_get. rewrite list_lookup_alter_eq. by destruct (a !! i) as [[x|]|].
Qed.

(** A peer drops and comes back: the close event is announced, the
    reconnect timer set by it opens a new socket once
    [reconnectTimeoutDuration] has passed, and when that socket opens it is
    handed exactly the outstanding requests, in the order in which they were
    registered. *)
Theorem reconnect_replays_requests cfg i c s now :
  handles_fresh c →
  array_get (sockets c) i = Some s → onclose s = true →
  (clock (loop c) + reconnectTimeoutDuration cfg ≤ now)%Z →
  let c3 := socket_onopen i
              (fire cfg (next_handle (loop c)) now (socket_onclose cfg i c)) in
  ∃ s3, array_get (sockets c3) i = Some s3 ∧
        sent s3 = (requestsByKey (router c)).*2 ∧
        ready s3 = OPEN ∧ onclose s3 = true ∧
        emitted (loop c3) =
          emitted (loop c) ++ [(clock (loop c), EClose i); (now, EOpen i)].
Proof.
  intros Hfresh Hget Hon Hnow. cbv zeta.
  unfold socket_onclose. rewrite Hget, Hon. cbv zeta.
  set (c1 := with_loop _ _).
  assert (pending_timer (next_handle (loop c)) c1 =
          Some {| handle := next_handle (loop c);
                  due := (clock (loop c) + reconnectTimeoutDuration cfg)%Z;
                  action := Reconnect i |}) as Hpending.
  { eapply pending_timer_snoc_fresh; [reflexivity | reflexivity |].
    eapply Forall_impl; [exact Hfresh |]. cbn. lia. }
  unfold fire. rewrite Hpending. cbn [due action]. rewrite decide_True by done.
  cbn [run_callback]. set (c2 := with_loop _ c1).
  unfold socket_onopen, openSocket. cbn [sockets with_sockets].
  rewrite array_get_set_eq.
  eexists. split.
  - unfold update_socket. cbn [sockets with_sockets with_loop].
    rewrite array_get_alter, array_get_set_eq. reflexivity.
  - cbn. rewrite app_nil_r. split_and!; try done. by rewrite <-app_assoc.
Qed.

Lemma reconnect_replays_requests_witness :
  let c := (sendCommand 1 {[ "identity" := "A" ]} (opened example_config 0)).1 in
  let c3 := socket_onopen 0
              (fire example_config (next_handle (loop c)) 100
                 (socket_onclose example_config 0 c)) in
  ∃ s3, array_get (sockets c3) 0 = Some s3 ∧
        sent s3 = (requestsByKey (router c)).*2 ∧
        ready s3 = OPEN ∧ onclose s3 = true ∧
        emitted (loop c3) =
          emitted (loop c) ++ [(clock (loop c), EClose 0); (100%Z, EOpen 0)].
Proof.
  cbv zeta.
  eapply (reconnect_replays_requests example_config 0).
  - repeat constructor.
  - vm_compute. reflexivity.
  - reflexivity.
  - vm_compute. discriminate.
Defined.

(** ** A second open *)

(** [open()] on a connection whose watchdog is armed arms another one and
    keeps only the new handle: the earlier timer stays pending, and a later
    [close()] does not cancel it. *)
Theorem second_open_keeps_first_watchdog cfg c t :
  handles_fresh c → watchdog_timer c = Some t →
  synchronizationTimeout (open cfg c) = Some (next_handle (loop c)) ∧
  handle t ≠ next_handle (loop c) ∧
  t ∈ timers (loop (open cfg c)) ∧
  t ∈ timers (loop (close (open cfg c))).
Proof.
  intros Hfresh Hw. unfold watchdog_timer in Hw.
  destruct (synchronizationTimeout c) as [h|]; [|done]. cbn in Hw.
  apply pending_timer_Some in Hw as [_ Hin].
  assert (handle t < next_handle (loop c)) as Hlt
    by by eapply Forall_forall in Hfresh.
  rewrite open_runs_routine. set (c0 := openSocket cfg 2 _).
  pose proof (synchronizationRoutine_run cfg c0) as Hrun. cbv zeta in Hrun.
  destruct Hrun as (_ & _ & _ & Htm & Hto & _ & _).
  assert (t ∈ timers (loop (synchronizationRoutine cfg c0))) as Hin'.
  { rewrite Htm. apply elem_of_app. by left. }
  split_and!; [exact Hto | lia | exact Hin' |].
  apply close_keeps_other_timers; [exact Hin' |]. rewrite Hto.
  intros [= Heq]. change (next_handle (loop c0)) with (next_handle (loop c)) in Heq. lia.
Qed.

Lemma second_open_keeps_first_watchdog_witness :
  {| handle := 0; due := 60005; action := Watchdog |}
    ∈ timers (loop (close (open example_config (createConnection example_config 5)))).
Proof.
  apply (second_open_keeps_first_watchdog example_config
           (createConnection example_config 5)
           {| handle := 0; due := 60005; action := Watchdog |}).
  - repeat constructor.
  - reflexivity.
Defined.

(** ** The computors of a connection *)








Section computors_runs.
Context `{Collaborators}.


End computors_runs.


(** ** More on the outbox *)

Section outbox_more.
Import Client.
Implicit Types (c : client) (tr : list action) (k : continuation).

Lemma info_idle n c : n ≤ 2 → info n c = c.
Proof.
  intros Hn. unfold info. generalize (listeners c) as ls. intros ls. revert c.
  induction ls as [|l ls IH]; intros c; [done |]. cbn.
  unfold infoListener at 2. rewrite decide_False by lia. apply IH.
Qed.

(** Below full sync an info event polls nothing, however many listeners
    are attached: the client is unchanged. *)
Theorem info_below_full_sync n c : n ≤ 2 → info n c = c.
Proof. exact (info_idle n c). Qed.

Lemma info_below_full_sync_witness :
  info 2 (run [Restart; Transaction "D1" "m" "s"; Resume (AwaitPut "D1" "m" "s")
                 (Build_status false None 0 0)])
  = run [Restart; Transaction "D1" "m" "s"; Resume (AwaitPut "D1" "m" "s")
           (Build_status false None 0 0)].
Proof. apply info_below_full_sync. lia. Defined.

Lemma info_fold n ls : ∀ c,
  2 < n →
  let c' := foldl (λ c l, infoListener l.1 l.2 n c) c ls in
  trace c' = trace c ++ ((λ l, Query l.2) <$> ls) ∧
  suspended c' = suspended c ++ ((λ l, AwaitStatus l.1 l.2) <$> ls) ∧
  db c' = db c ∧ listeners c' = listeners c ∧ infoListeners c' = infoListeners c ∧
  put_handlers c' = put_handlers c.
Proof.
  induction ls as [|l ls IH]; intros c Hn; cbn.
  - by rewrite !app_nil_r.
  - destruct (IH (infoListener l.1 l.2 n c) Hn) as (Ht & Hs & Hd & Hl & Hi & Hp).
    rewrite Ht, Hs, Hd, Hl, Hi, Hp. unfold infoListener. rewrite decide_True by done.
    cbn. by rewrite <-!app_assoc.
Qed.

Lemma info_polls n c :
  2 < n →
  trace (info n c) = trace c ++ ((λ l, Query l.2) <$> listeners c) ∧
  suspended (info n c) = suspended c ++ ((λ l, AwaitStatus l.1 l.2) <$> listeners c) ∧
  db (info n c) = db c ∧ listeners (info n c) = listeners c ∧
  infoListeners (info n c) = infoListeners c ∧ put_handlers (info n c) = put_handlers c.
Proof. intros Hn. exact (info_fold n (listeners c) c Hn). Qed.

(** At full sync every attached listener issues exactly one status query
    for its digest, in the order of attachment, and waits for the reply;
    the store and the listeners are untouched. *)
Theorem info_at_full_sync n c :
  2 < n →
  trace (info n c) = trace c ++ ((λ l, Query l.2) <$> listeners c) ∧
  suspended (info n c) = suspended c ++ ((λ l, AwaitStatus l.1 l.2) <$> listeners c) ∧
  db (info n c) = db c ∧ listeners (info n c) = listeners c.
Proof.
  intros Hn. destruct (info_polls n c Hn) as (Ht & Hs & Hd & Hl & _).
  by split_and!.
Qed.

Lemma info_at_full_sync_witness :
  trace (info 3 (run [Restart; Transaction "D1" "m" "s"; Resume (AwaitPut "D1" "m" "s")
                        (Build_status false None 0 0)]))
  = [Put "D1" "m" "s"; Query "D1"].
Proof.
  apply (info_at_full_sync 3
           (run [Restart; Transaction "D1" "m" "s"; Resume (AwaitPut "D1" "m" "s")
                   (Build_status false None 0 0)])). lia.
Defined.

(** A reply without inclusion, with or without a reason, deletes nothing
    and detaches nothing: the listener queries again at the next full
    sync. *)
Theorem rejection_keeps_entry_and_listener id key r c :
  inclusionState r = false → (id, key) ∈ listeners c →
  let c' := resume (AwaitStatus id key) r c in
  db c' = db c ∧ listeners c' = listeners c ∧
  AwaitStatus id key ∈ suspended (info 3 c') ∧
  Query key ∈ drop (length (trace c')) (trace (info 3 c')).
Proof.
  intros Hr Hin. cbv zeta.
  assert (db (resume (AwaitStatus id key) r c) = db c ∧
          listeners (resume (AwaitStatus id key) r c) = listeners c) as [Hd Hl].
  { unfold resume. case_decide; [|done]. rewrite Hr. by destruct (truthy (reason r)). }
  destruct (info_polls 3 (resume (AwaitStatus id key) r c)) as (Ht & Hs & _);
    [lia |].
  split_and!; [done | done | |].
  - rewrite Hs, Hl. apply elem_of_app. right.
    apply list_elem_of_fmap. by exists (id, key).
  - rewrite Ht, drop_app_length, Hl. apply list_elem_of_fmap. by exists (id, key).
Qed.

Lemma rejection_keeps_entry_and_listener_witness :
  let c := info 3 (run [Restart; Transaction "D1" "m" "s"; Resume (AwaitPut "D1" "m" "s")
                          (Build_status false None 0 0)]) in
  let c' := resume (AwaitStatus 0 "D1") (Build_status false (Some "nonce") 0 0) c in
  db c' = db c ∧ listeners c' = listeners c ∧
  AwaitStatus 0 "D1" ∈ suspended (info 3 c') ∧
  Query "D1" ∈ drop (length (trace c')) (trace (info 3 c')).
Proof.
  cbv zeta. apply rejection_keeps_entry_and_listener; [reflexivity |].
  vm_compute. apply elem_of_cons. by left.
Defined.
End outbox_more.

Section outbox_order.
Import Client.
Implicit Types (c : client) (tr : list action) (k : continuation).

Ltac in_last := apply elem_of_app; right; by apply list_elem_of_singleton.
Ltac in_init := apply elem_of_app; by left.

Lemma queried_first_snoc tr a :
  queried_first tr → preceded a tr → queried_first (tr ++ [a]).
Proof.
  intros Htr Ha pre a' post Heq.
  induction post as [|b post _] using rev_ind.
  - apply app_inj_tail in Heq as [-> ->]. exact Ha.
  - rewrite app_comm_cons, app_assoc in Heq.
    apply app_inj_tail in Heq as [-> _]. by eapply Htr.
Qed.

Lemma queried_snoc k tr a : queried k tr → queried k (tr ++ [a]).
Proof. destruct k; cbn; try done; intros ?; in_init. Qed.

Lemma query_state_same c c' :
  trace c' = trace c → (∀ k, k ∈ suspended c' → k ∈ suspended c) →
  query_state c → query_state c'.
Proof. intros Ht Hs [Hq Ho]. split; [|by rewrite Ht]. intros k Hk. rewrite Ht. auto. Qed.

Lemma query_state_infoListener id key n c :
  was_put key (trace c) → query_state c → query_state (infoListener id key n c).
Proof.
  intros Hput [Hq Ho]. unfold infoListener. case_decide; [|done]. split; cbn.
  - intros k [Hk|Hk%list_elem_of_singleton]%elem_of_app.
    + by apply queried_snoc, Hq.
    + subst k. cbn. in_last.
  - by apply queried_first_snoc.
Qed.

Lemma query_state_info n c : invariant c → query_state c → query_state (info n c).
Proof.
  intros Hinv. unfold info.
  assert (∀ l, l ∈ listeners c → was_put l.2 (trace c)) as Hall
    by apply (inv_listeners _ Hinv).
  revert Hall. generalize (listeners c) as ls. intros ls. revert c Hinv.
  induction ls as [|l ls IH]; intros c Hinv Hall Hq; [done |]. cbn.
  destruct (invariant_infoListener l.1 l.2 n c Hinv) as [Hinv' Hmono].
  { apply Hall, elem_of_cons. by left. }
  apply IH; [done | |].
  - intros l' Hl'. apply Hmono, Hall, elem_of_cons. by right.
  - apply query_state_infoListener; [|done]. apply Hall, elem_of_cons. by left.
Qed.

Lemma trace_watch_outbox c : trace (watch_outbox c) = trace c ∧
  suspended (watch_outbox c) = suspended c ∧ db (watch_outbox c) = db c.
Proof.
  unfold watch_outbox. generalize ((map_to_list (db c)).*1) as keys. intros keys.
  set (c0 := {| db := db c |}).
  change (trace c) with (trace c0). change (suspended c) with (suspended c0).
  change (db c) with (db c0).
  generalize c0. clear c0. induction keys as [|key keys IH]; intros c0; [done |].
  cbn. by destruct (IH (onTransaction key c0)) as (-> & -> & ->).
Qed.

Lemma trace_terminate c : trace (terminate c) = trace c ∧
  suspended (terminate c) = suspended c ∧ db (terminate c) = db c.
Proof.
  unfold terminate. generalize (infoListeners c) as ls. intros ls. revert c.
  induction ls as [|l ls IH]; intros c; [done |].
  cbn. by destruct (IH (removeListener l.1 c)) as (-> & -> & ->).
Qed.

Lemma suspended_on_put d n c :
  suspended (Nat.iter n (onTransaction d) c) = suspended c ∧
  db (Nat.iter n (onTransaction d) c) = db c.
Proof. induction n as [|n [IH1 IH2]]; [done | by cbn]. Qed.

Lemma resume_put d m s r c :
  AwaitPut d m s ∈ suspended c →
  trace (resume (AwaitPut d m s) r c) = trace c ++ [Put d m s] ∧
  suspended (resume (AwaitPut d m s) r c) =
    remove_first (AwaitPut d m s) (suspended c) ++ [ThenSubmit d m s] ∧
  db (resume (AwaitPut d m s) r c) = <[d := (m, s)]> (db c).
Proof.
  intros Hin. unfold resume. rewrite decide_True by done. cbv zeta.
  set (c1 := log (Put d m s) _).
  change (put_handlers c1) with (put_handlers c).
  destruct (suspended_on_put d (put_handlers c) c1) as [Hs Hd].
  pose proof (trace_on_put d (put_handlers c) c1) as Ht.
  unfold suspend. cbn [trace suspended db]. by rewrite Ht, Hs, Hd.
Qed.

Lemma query_state_resume k r c : query_state c → query_state (resume k r c).
Proof.
  intros [Hq Ho].
  destruct (decide (k ∈ suspended c)) as [Hin|Hnin];
    [|unfold resume; by rewrite decide_False by done].
  pose proof (Hq k Hin) as Hk.
  assert (∀ k', k' ∈ remove_first k (suspended c) → queried k' (trace c)) as Hq'.
  { intros k' Hk'. by eapply Hq, remove_first_subseteq. }
  destruct k as [d m s|d m s|id key|id key t e|id key t e]; cbn in Hk.
  - destruct (resume_put d m s r c Hin) as (Ht & Hs & _). split; rewrite Ht.
    + intros k'. rewrite Hs.
      intros [Hk'|Hk'%list_elem_of_singleton]%elem_of_app;
        [by apply queried_snoc, Hq' | by subst k'].
    + by apply queried_first_snoc.
  - unfold resume. rewrite decide_True by done. split; cbn.
    + intros k' Hk'. by apply queried_snoc, Hq'.
    + by apply queried_first_snoc.
  - unfold resume. rewrite decide_True by done. cbv zeta.
    destruct (inclusionState r); [|destruct (truthy (reason r))].
    + split; cbn; [|done].
      intros k' [Hk'|Hk'%list_elem_of_singleton]%elem_of_app; [by apply Hq' | by subst k'].
    + split; cbn.
      * intros k' Hk'. by apply queried_snoc, Hq'.
      * by apply queried_first_snoc.
    + by split.
  - unfold resume. rewrite decide_True by done. split; cbn.
    + intros k' [Hk'|Hk'%list_elem_of_singleton]%elem_of_app;
        [by apply queried_snoc, Hq' | by subst k'].
    + by apply queried_first_snoc.
  - unfold resume. rewrite decide_True by done. split; cbn.
    + intros k' Hk'. by apply queried_snoc, Hq'.
    + by apply queried_first_snoc.
Qed.

Lemma query_state_step l c :
  invariant c → query_state c → query_state (step l c).
Proof.
  intros Hinv Hq. destruct l; cbn.
  - unfold restart. eapply query_state_same.
    + apply trace_watch_outbox.
    + destruct (trace_watch_outbox
                  {| db := db c; put_handlers := 0; listeners := []; infoListeners := [];
                     next_listener := 0; suspended := []; trace := trace c |}) as (_ & -> & _).
      cbn. intros k Hk. by apply elem_of_nil in Hk.
    + destruct Hq as [_ Ho]. split; [|done]. intros k Hk. exact (False_rect _ (proj1 (elem_of_nil k) Hk)).
  - unfold launch. revert Hq. apply query_state_same; [apply trace_watch_outbox |].
    destruct (trace_watch_outbox c) as (_ & -> & _). auto.
  - revert Hq. apply query_state_same; [apply trace_terminate |].
    destruct (trace_terminate c) as (_ & -> & _). auto.
  - destruct Hq as [Hq Ho]. split; [|done]. cbn.
    intros k [Hk|Hk%list_elem_of_singleton]%elem_of_app; [by apply Hq | by subst k].
  - by apply query_state_info.
  - by apply query_state_resume.
  - revert Hq. apply query_state_same; [done |].
    intros k' Hk'. cbn in Hk'. by eapply remove_first_subseteq.
Qed.

Lemma query_state_run ls : query_state (run ls).
Proof.
  unfold run. induction ls as [|l ls IH] using rev_ind.
  - split; cbn.
    + intros k Hk. by apply elem_of_nil in Hk.
    + intros pre x post Heq. by destruct pre.
  - rewrite foldl_snoc. apply query_state_step; [apply invariant_run | exact IH].
Qed.

(** In every history of the client: a status query is issued only for a
    digest that was put before, and a delete of a digest and a rejection of
    a digest come only after a status query for it. *)
Theorem queries_come_first (ls : list label) pre a post :
  trace (run ls) = pre ++ a :: post →
  match a with
  | Query d => ∃ m s, Put d m s ∈ pre
  | Del d | Rejection d _ => Query d ∈ pre
  | _ => True
  end.
Proof.
  intros Htr. destruct (query_state_run ls) as [_ Ho].
  specialize (Ho pre a post Htr). by destruct a.
Qed.

Lemma queries_come_first_witness :
  Query "D1" ∈ [ Put "D1" "bWVzc2FnZQ==" "c2ln"; Submit "bWVzc2FnZQ==" "c2ln"; Query "D1" ].
Proof.
  apply (queries_come_first included_transfer _ (Del "D1") [Inclusion "D1" 100 10]).
  vm_compute. reflexivity.
Defined.

(** *** Durability *)

Lemma was_put_log a c d :
  (∀ m s, a ≠ Put d m s) → was_put d (trace c ++ [a]) → was_put d (trace c).
Proof.
  intros Ha (m & s & [Hin|Hin%list_elem_of_singleton]%elem_of_app); [by exists m, s |].
  by destruct (Ha m s).
Qed.

Lemma kept_same c c' :
  trace c' = trace c → db c' = db c → kept c → kept c'.
Proof. unfold kept. by intros -> ->. Qed.

Lemma kept_log a c :
  (∀ d m s, a ≠ Put d m s) → kept c → kept (log a c).
Proof.
  intros Ha Hk d Hd. cbn in *. apply was_put_log in Hd; [|apply Ha].
  destruct (Hk d Hd) as [?|?]; [by left | right; in_init].
Qed.

Lemma kept_info n c : kept c → kept (info n c).
Proof.
  unfold info. generalize (listeners c) as ls. intros ls. revert c.
  induction ls as [|l ls IH]; intros c Hk; [done |]. cbn. apply IH.
  unfold infoListener. case_decide; [|done].
  eapply kept_same; [reflexivity | reflexivity |]. by apply kept_log.
Qed.

Lemma kept_resume k r c : kept c → kept (resume k r c).
Proof.
  intros Hk.
  destruct (decide (k ∈ suspended c)) as [Hin|Hnin];
    [|unfold resume; by rewrite decide_False by done].
  destruct k as [d m s|d m s|id key|id key t e|id key t e].
  - destruct (resume_put d m s r c Hin) as (Ht & _ & Hd).
    intros d' Hd'. rewrite Ht, Hd in *.
    destruct (decide (d = d')) as [<-|Hne].
    + left. rewrite lookup_insert_eq. by eexists.
    + rewrite lookup_insert_ne by done.
      destruct (Hk d') as [?|?]; [|by left | right; in_init].
      apply was_put_log in Hd'; [done | congruence].
  - unfold resume. rewrite decide_True by done. by apply (kept_log (Submit m s)).
  - unfold resume. rewrite decide_True by done. cbv zeta.
    destruct (inclusionState r); [done |].
    destruct (truthy (reason r)); [|done]. by apply kept_log.
  - unfold resume. rewrite decide_True by done.
    intros d' Hd'. cbn in *. apply was_put_log in Hd'; [|done].
    destruct (decide (key = d')) as [<-|Hne]; [right; in_last |].
    rewrite lookup_delete_ne by done.
    destruct (Hk d' Hd') as [?|?]; [by left | right; in_init].
  - unfold resume. rewrite decide_True by done.
    eapply kept_same; [reflexivity | reflexivity |]. by apply (kept_log (Inclusion key t e)).
Qed.

Lemma kept_step l c : kept c → kept (step l c).
Proof.
  intros Hk. destruct l; cbn.
  - unfold restart.
    eapply kept_same; [apply trace_watch_outbox | apply trace_watch_outbox | exact Hk].
  - unfold launch.
    eapply kept_same; [apply trace_watch_outbox | apply trace_watch_outbox | exact Hk].
  - eapply kept_same; [apply trace_terminate | apply trace_terminate | exact Hk].
  - done.
  - by apply kept_info.
  - by apply kept_resume.
  - done.
Qed.

(** In every history of the client, a digest that was put is still in the
    store unless a delete of it has completed: nothing else removes an
    entry, not a rejection, a restart nor a terminate. *)
Theorem outbox_entries_are_kept (ls : list label) d m s :
  Put d m s ∈ trace (run ls) →
  is_Some (db (run ls) !! d) ∨ Del d ∈ trace (run ls).
Proof.
  intros Hput. cut (kept (run ls)); [intros Hk; apply Hk; by exists m, s |].
  clear. unfold run. induction ls as [|l ls IH] using rev_ind.
  - intros d (m & s & Hin). by apply elem_of_nil in Hin.
  - rewrite foldl_snoc. by apply kept_step.
Qed.

Lemma outbox_entries_are_kept_witness :
  is_Some (db (run [Restart; Transaction "D1" "m" "s";
                    Resume (AwaitPut "D1" "m" "s") (Build_status false None 0 0);
                    Terminate; Restart]) !! "D1") ∨
  Del "D1" ∈ trace (run [Restart; Transaction "D1" "m" "s";
                         Resume (AwaitPut "D1" "m" "s") (Build_status false None 0 0);
                         Terminate; Restart]).
Proof.
  apply (outbox_entries_are_kept _ "D1" "m" "s"). vm_compute.
  apply elem_of_cons. by left.
Defined.
End outbox_order.

Section outbox_terminate.
Import Client.
Implicit Types (c : client).

Lemma recorded_onTransaction key c : recorded c → recorded (onTransaction key c).
Proof.
  intros Hr l. cbn. rewrite !elem_of_app. intros [Hl|Hl]; [left; by apply Hr | by right].
Qed.

Lemma recorded_fewer c c' :
  (∀ l, l ∈ listeners c' → l ∈ listeners c) → infoListeners c' = infoListeners c →
  recorded c → recorded c'.
Proof. intros Hl Hi Hr l Hin. rewrite Hi. by apply Hr, Hl. Qed.

Lemma recorded_watch_outbox c : recorded c → recorded (watch_outbox c).
Proof.
  intros Hr. unfold watch_outbox. generalize ((map_to_list (db c)).*1) as keys. intros keys.
  assert (recorded {| db := db c; put_handlers := S (put_handlers c);
                      listeners := listeners c; infoListeners := infoListeners c;
                      next_listener := next_listener c; suspended := suspended c;
                      trace := trace c |}) as Hr0 by done.
  revert Hr0. generalize {| db := db c; put_handlers := S (put_handlers c);
                            listeners := listeners c; infoListeners := infoListeners c;
                            next_listener := next_listener c; suspended := suspended c;
                            trace := trace c |} as c0.
  induction keys as [|key keys IH]; intros c0 Hr0; [done |].
  cbn. by apply IH, recorded_onTransaction.
Qed.

Lemma listeners_terminate (ls : list (nat * string)) : ∀ c l,
  l ∈ listeners (foldl (λ c l, removeListener l.1 c) c ls) →
  l ∈ listeners c ∧ l.1 ∉ ls.*1.
Proof.
  induction ls as [|l0 ls IH]; intros c l; cbn.
  - intros Hl. split; [done | apply not_elem_of_nil].
  - intros Hl. apply IH in Hl as [Hl Hnin]. cbn in Hl.
    apply list_elem_of_filter in Hl as [Hne Hl]. split; [done |].
    apply not_elem_of_cons. by split.
Qed.

Lemma infoListeners_terminate c : infoListeners (terminate c) = infoListeners c.
Proof.
  unfold terminate. generalize (infoListeners c) at 1 as ls. intros ls. revert c.
  induction ls as [|l ls IH]; intros c; [done |]. cbn. by rewrite IH.
Qed.

Lemma recorded_resume k r c : recorded c → recorded (resume k r c).
Proof.
  intros Hr. unfold resume. case_decide; [|done]. cbv zeta.
  destruct k as [d m s|d m s|id key|id key t e|id key t e].
  - assert (∀ n c0, recorded c0 → recorded (Nat.iter n (onTransaction d) c0)) as Hiter.
    { induction n as [|n IH]; intros c0 Hc0; [done |]. cbn.
      by apply recorded_onTransaction, IH. }
    revert Hr. intros Hr. apply (recorded_fewer (Nat.iter (put_handlers c) (onTransaction d)
      (log (Put d m s) (with_db (<[d:=(m, s)]> (db (unsuspend (AwaitPut d m s) c)))
         (unsuspend (AwaitPut d m s) c))))); [done | done |].
    by apply Hiter.
  - done.
  - destruct (inclusionState r); [done |]. by destruct (truthy (reason r)).
  - done.
  - revert Hr. apply recorded_fewer; [|done]. cbn.
    by intros l [_ Hl]%list_elem_of_filter.
Qed.

Lemma recorded_run ls : recorded (run ls).
Proof.
  unfold run. induction ls as [|l ls IH] using rev_ind.
  - intros l Hl. by apply elem_of_nil in Hl.
  - rewrite foldl_snoc. destruct l; cbn.
    + unfold restart. apply recorded_watch_outbox. intros l Hl. by apply elem_of_nil in Hl.
    + by apply recorded_watch_outbox.
    + revert IH. apply recorded_fewer; [|apply infoListeners_terminate].
      intros l Hl. by apply listeners_terminate in Hl as [? _].
    + done.
    + revert IH. set (c := foldl _ _ ls).
      destruct (decide (2 < syncStatus)) as [Hn|Hn].
      * destruct (info_fold syncStatus (listeners c) c Hn) as (_ & _ & _ & Hl & Hi & _).
        apply recorded_fewer; [by intros l; unfold info; rewrite Hl | by unfold info; rewrite Hi].
      * rewrite info_idle by lia. done.
    + by apply recorded_resume.
    + done.
Qed.

(** In every history of the client, [terminate] leaves no info listener of
    the outbox attached. *)
Theorem terminate_detaches_every_listener (ls : list label) :
  listeners (terminate (run ls)) = [].
Proof.
  destruct (listeners (terminate (run ls))) as [|l rest] eqn:Hl; [done |].
  assert (l ∈ listeners (terminate (run ls))) as Hin
    by (rewrite Hl; apply elem_of_cons; by left).
  apply listeners_terminate in Hin as [Hin Hnin]. destruct Hnin.
  apply list_elem_of_fmap. exists l. split; [done |]. by apply recorded_run.
Qed.
End outbox_terminate.

(** ** Environment listeners *)

Lemma environment_payload_inj (a b : string) :
  ({[ "environmentDigest" := a ]} : object) = {[ "environmentDigest" := b ]} → a = b.
Proof.
  intros Heq. apply (f_equal (λ o : object, o !! "environmentDigest")) in Heq.
  rewrite !lookup_singleton_eq in Heq. congruence.
Qed.

Lemma call_keeps_registered x e environment :
  environment ∈ emittersByEnvironment e →
  environment ∈ emittersByEnvironment (call x e).1.
Proof.
  intros Hin. destruct x as [env|env]; cbn.
  - unfold addEnvironmentListener. cbv zeta. cbn. case_decide; [done |].
    cbn. apply elem_of_union. by right.
  - unfold removeEnvironmentListener. by case_decide.
Qed.

Lemma call_add_registers environment e :
  environment ∈ emittersByEnvironment (call (AddListener environment) e).1.
Proof.
  cbn. unfold addEnvironmentListener. cbv zeta. cbn. case_decide; [done |].
  cbn. apply elem_of_union. left. by apply elem_of_singleton.
Qed.

Lemma call_subscriptions x e :
  (∀ environment,
     environment ∈ emittersByEnvironment e ↔
     (5%Z, ({[ "environmentDigest" := environment ]} : object)) ∈ issued e) →
  NoDup (filter (λ rq : request, rq.1 = 5%Z) (issued e)) →
  (∀ environment,
     environment ∈ emittersByEnvironment (call x e).1 ↔
     (5%Z, ({[ "environmentDigest" := environment ]} : object)) ∈ issued (call x e).1) ∧
  NoDup (filter (λ rq : request, rq.1 = 5%Z) (issued (call x e).1)).
Proof.
  intros Hreg Hnd. destruct x as [env|env]; cbn -[filter].
  - unfold addEnvironmentListener. cbv zeta. cbn -[filter].
    destruct (decide (env ∈ emittersByEnvironment e)) as [Hin|Hnin]; [done |].
    cbn -[filter]. split.
    + intros environment.
      rewrite elem_of_union, elem_of_singleton, elem_of_app, list_elem_of_singleton, Hreg.
      split; intros [Hl|Hl].
      * right. by subst.
      * by left.
      * by right.
      * left. apply environment_payload_inj. exact (f_equal snd Hl).
    + rewrite filter_app.
      apply NoDup_app. split_and!; [done | | apply NoDup_filter, NoDup_singleton].
      intros rq [_ Hrq]%list_elem_of_filter [_ Heq%list_elem_of_singleton]%list_elem_of_filter.
      subst rq. by apply Hnin, Hreg.
  - unfold removeEnvironmentListener.
    destruct (decide (env ∈ emittersByEnvironment e)) as [Hin|Hnin]; [|done].
    cbn -[filter]. split.
    + intros environment. rewrite elem_of_app, list_elem_of_singleton, Hreg.
      split; [by left | intros [?|[=]]; done].
    + rewrite filter_app.
      apply NoDup_app. split_and!; [done | | apply NoDup_filter, NoDup_singleton].
      intros rq _ [Hrq Heq%list_elem_of_singleton]%list_elem_of_filter.
      by subst rq.
Qed.

(** Over any sequence of calls: an environment is registered exactly when
    its subscription (command 5) was issued, and no subscription is issued
    twice. *)
Theorem environments_subscribe_once (xs : list environment_call) :
  let e := calls xs in
  (∀ environment,
     environment ∈ emittersByEnvironment e ↔
     (5%Z, ({[ "environmentDigest" := environment ]} : object)) ∈ issued e) ∧
  NoDup (filter (λ rq : request, rq.1 = 5%Z) (issued e)).
Proof.
  cbv zeta. unfold calls. induction xs as [|x xs IH] using rev_ind.
  - cbn. split.
    + intros environment. split; [by intros ?%elem_of_empty | by intros ?%elem_of_nil].
    + apply NoDup_nil_2.
  - rewrite foldl_snoc. set (e := foldl _ _ xs) in *.
    destruct IH as (Hreg & Hnd). exact (call_subscriptions x e Hreg Hnd).
Qed.

Lemma call_registered x e environment :
  environment ∈ emittersByEnvironment (call x e).1 →
  environment ∈ emittersByEnvironment e ∨ x = AddListener environment.
Proof.
  destruct x as [env|env]; cbn.
  - unfold addEnvironmentListener. cbv zeta. cbn. case_decide; [by left |].
    cbn. intros [Heq%elem_of_singleton|Hin]%elem_of_union; [right; by subst | by left].
  - unfold removeEnvironmentListener. case_decide; by left.
Qed.

(** Over any sequence of calls the registered environments are exactly
    those that were ever added: no call of [removeEnvironmentListener]
    unregisters one, because the call on the stored promise throws before
    the entry is deleted. *)
Theorem environments_are_never_removed (xs : list environment_call) environment :
  environment ∈ emittersByEnvironment (calls xs) ↔ AddListener environment ∈ xs.
Proof.
  unfold calls. induction xs as [|x xs IH] using rev_ind.
  - cbn. split; [by intros ?%elem_of_empty | by intros ?%elem_of_nil].
  - rewrite foldl_snoc, elem_of_app, list_elem_of_singleton, <-IH. split.
    + intros [Hin | ->]%call_registered; [by left | by right].
    + intros [Hin | <-]; [by apply call_keeps_registered | apply call_add_registers].
Qed.

(** Every call with something to do throws: adding always does, removing
    does for a registered environment (after issuing command 6, and without
    unregistering it); removing an unknown environment does nothing. *)
Theorem environment_calls_throw (x : environment_call) (e : environments) :
  match x with
  | AddListener environment => (call x e).2 = Threw "TypeError"
  | RemoveListener environment =>
      if decide (environment ∈ emittersByEnvironment e)
      then (call x e).2 = Threw "TypeError" ∧
           emittersByEnvironment (call x e).1 = emittersByEnvironment e ∧
           issued (call x e).1 =
             issued e ++ [(6%Z, {[ "environmentDigest" := environment ]})]
      else call x e = (e, Returned)
  end.
Proof.
  destruct x as [env|env]; cbn; [done |].
  unfold removeEnvironmentListener. by case_decide.
Qed.

(** ** The crypto wrappers *)

(** [K12] fails exactly when the window does not fit in [output];
    otherwise the result has the length of [output], equals it outside the
    window, and holds in the window the bytes the module wrote. *)
Theorem K12_writes_its_window `{Hash} (input output : list Z) (n off : nat) :
  match K12 input output n off with
  | Some output' =>
      n + off ≤ length output ∧
      length output' = length output ∧
      take off output' = take off output ∧
      drop (off + n) output' = drop (off + n) output ∧
      take n (drop off output') = resize n 0%Z (KangarooTwelve input n)
  | None => length output < n + off
  end.
Proof.
  unfold K12, TypedArray_set. cbv zeta. rewrite length_resize.
  case_decide as Hfit; [|lia].
  set (o := resize n 0%Z _). assert (length o = n) as Ho by apply length_resize.
  assert (length (take off output) = off) as Htake by (rewrite length_take; lia).
  split_and!.
  - done.
  - rewrite !length_app, length_drop, Htake, Ho. lia.
  - rewrite take_app_length'; done.
  - rewrite app_assoc, drop_app_length'; [done |]. rewrite length_app, Htake, Ho. lia.
  - rewrite drop_app_length' by done. by rewrite take_app_length' by done.
Qed.

(** The window of [allocU8] is the block that was allocated, provided the
    heap view starts at byte 0 and the block lies inside it. *)
Theorem allocU8_is_the_block (HEAPU8 : heap_view) (ptr l : nat) :
  BYTES_PER_ELEMENT HEAPU8 = 1 → byteOffset HEAPU8 = 0 →
  ptr + l ≤ view_length HEAPU8 →
  byteOffset (allocU8 HEAPU8 ptr l) = ptr ∧ view_length (allocU8 HEAPU8 ptr l) = l.
Proof. intros Hb Ho Hfit. unfold allocU8, subarray. cbn. rewrite Hb, Ho. lia. Qed.

Lemma allocU8_is_the_block_witness :
  byteOffset (allocU8 {| byteOffset := 0; view_length := 64; BYTES_PER_ELEMENT := 1 |}
                16 32) = 16 ∧
  view_length (allocU8 {| byteOffset := 0; view_length := 64; BYTES_PER_ELEMENT := 1 |}
                 16 32) = 32.
Proof. apply allocU8_is_the_block; [reflexivity | reflexivity | cbn; lia]. Defined.


